(** * subdomain-bruteforce: a shallow embedding of [subdomain_bruteforce.py]

    The development follows the source file top-down.

    - [Py]         the few Python built-ins the program relies on
                   ([str.strip], [str.index], slicing, [itertools.product],
                   iteration over the lines of a text file, exceptions);
    - [Controller] the two candidate sources ([get_words_from_file],
                   [generate_word]) and the status dictionary
                   ([current_status]);
    - [Model]      the engine: its fields, and the threads it starts
                   ([bruteforce], [check_domain], [dns_checker]) as an
                   interleaving semantics driven by a schedule. *)

From Stdlib Require Import ZArith Ascii String List Lia QArith.
From stdpp Require Import base decidable option list gmap sets strings.

Local Open Scope string_scope.
Local Open Scope Z_scope.

(** ** Python built-ins *)

Module Py.

(** The exceptions the program can raise. *)
Inductive exception :=
| IndexError
| ValueError
| TypeError
| KeyError
| FileNotFoundError
| ZeroDivisionError.

#[global] Instance exception_eq_dec : EqDecision exception.
Proof. solve_decision. Defined.

(** A computation that either raises or returns. *)
Definition result (A : Type) : Type := exception + A.

Definition raise {A} (e : exception) : result A := inl e.
Definition ret {A} (a : A) : result A := inr a.
Definition bind {A B} (m : result A) (k : A -> result B) : result B :=
  match m with
  | inl e => inl e
  | inr a => k a
  end.

(** [try: body / except IndexError: handler]. *)
Definition try_except_IndexError {A} (body : result A) (handler : result A)
  : result A :=
  match body with
  | inl IndexError => handler
  | other => other
  end.

Notation "'do' x <- m ; k" := (bind m (fun x => k))
  (at level 10, x name, m at level 100, k at level 200).

Definition LF : ascii := ascii_of_nat 10.
Definition SP : ascii := ascii_of_nat 32.

Definition mem_ascii (c : ascii) (cs : list ascii) : bool :=
  existsb (Ascii.eqb c) cs.

(** [s.lstrip(chars)] on the characters of [s]. *)
Fixpoint lstrip_chars (chars : list ascii) (s : list ascii) : list ascii :=
  match s with
  | [] => []
  | c :: r => if mem_ascii c chars then lstrip_chars chars r else s
  end.

(** [s.strip(chars)]: drop leading and trailing characters among [chars]. *)
Definition strip (chars : list ascii) (s : string) : string :=
  string_of_list_ascii
    (rev (lstrip_chars chars (rev (lstrip_chars chars (list_ascii_of_string s))))).

(** The program only ever strips blanks and newlines: [strip(" \n")]. *)
Definition strip_sp_nl : string -> string := strip [SP; LF].

(** [s[i]] for [i >= 0]; subscripting [None] is a [TypeError]. *)
Definition subscript (s : option string) (i : nat) : result ascii :=
  match s with
  | None => raise TypeError
  | Some s =>
      match String.get i s with
      | Some c => ret c
      | None => raise IndexError
      end
  end.

(** [s.index(c)] for a one-character [c]. *)
Fixpoint str_index (c : ascii) (s : string) : result nat :=
  match s with
  | EmptyString => raise ValueError
  | String a r =>
      if Ascii.eqb a c then ret 0%nat
      else (do k <- str_index c r; ret (S k))
  end.

(** [s[k:]]. *)
Fixpoint slice_from (k : nat) (s : string) : string :=
  match k, s with
  | O, _ => s
  | S k', EmptyString => EmptyString
  | S k', String _ r => slice_from k' r
  end.

(** [range(n)]. *)
Definition range (n : Z) : list nat := seq 0 (Z.to_nat n).

(** [itertools.product] of the lists [ls]: the rightmost position advances
    fastest. *)
Fixpoint product {A} (ls : list (list A)) : list (list A) :=
  match ls with
  | [] => [[]]
  | l :: rest => flat_map (fun x => map (cons x) (product rest)) l
  end.

(** [string.ascii_lowercase]. *)
Definition ascii_lowercase : string := "abcdefghijklmnopqrstuvwxyz".

(** Iterating a text file yields its lines, each with its terminating
    newline, the last one possibly without. *)
Fixpoint lines_acc (cur : list ascii) (s : list ascii) : list string :=
  match s with
  | [] => match cur with
          | [] => []
          | _ => [string_of_list_ascii (rev cur)]
          end
  | c :: r =>
      if Ascii.eqb c LF
      then string_of_list_ascii (rev (c :: cur)) :: lines_acc [] r
      else lines_acc (c :: cur) r
  end.

Definition file_lines (content : string) : list string :=
  lines_acc [] (list_ascii_of_string content).

(** [round(x)] of an exact quotient [n/d], [d <> 0]: nearest integer, ties
    to even.  The float division of the source is taken exactly. *)
Definition round_div (n d : Z) : Z :=
  let n' := if d <? 0 then - n else n in
  let d' := Z.abs d in
  let q := n' / d' in
  let r := n' mod d' in
  if 2 * r <? d' then q
  else if d' <? 2 * r then q + 1
  else if Z.even q then q else q + 1.

End Py.

Import Py.

(** ** The engine: class [Model] *)

Module Model.

(** Calls made on the view, as they are observed from outside. *)
Inductive view_call :=
| found_subdomain (subdomain : string)
| completed (subdomains : gset string).

#[global] Instance view_call_eq_dec : EqDecision view_call.
Proof. solve_decision. Defined.

(** Where a [check_domain] thread stands. *)
Inductive check_domain_pc :=
| TResolve (domain : string)   (* about to call [domain_exists] *)
| TAdd (domain : string)       (* about to add to [found_subdomains] *)
| TNotify (domain : string)    (* about to call [view.found_subdomain] *)
| TDone.                       (* terminated: [join] returns *)

#[global] Instance check_domain_pc_eq_dec : EqDecision check_domain_pc.
Proof. solve_decision. Defined.

(** Where the [bruteforce] thread stands. *)
Inductive bruteforce_pc :=
| PFor                                 (* [for word in self.words] *)
| PWait (word : string)                (* [self.dns_working.wait()] *)
| PStart (word : string)               (* [start_daemon_thread(...)] *)
| PAdd (subdomain : string) (t : nat)  (* [self.subdomain_threads.add(t)] *)
| PLimit (subdomain : string)          (* [while len(...) > thread_limit] *)
| PJoin (subdomain : string) (t : nat) (* [thread.join()] after [pop()] *)
| PLatest (subdomain : string)         (* [self.latest = subdomain] *)
| PCount                               (* [checked_subdomains_count += 1] *)
| PDrain (ts : list nat)               (* the final [for thread ...: join] *)
| PSet                                 (* [complete_bruteforcing.set()] *)
| PView                                (* [view.completed(...)] *)
| PDone                                (* returned *)
| PCrashed (e : exception).            (* died on an uncaught exception *)

#[global] Instance bruteforce_pc_eq_dec : EqDecision bruteforce_pc.
Proof. solve_decision. Defined.

(** Where the [dns_checker] thread stands. *)
Inductive dns_checker_pc :=
| CTest                 (* [while not complete_bruteforcing.is_set()] *)
| CProbe                (* [domain_exists(self.base_domain)] *)
| CFirst (ok : bool)    (* [dns_working.set()] or [.clear()] *)
| CSecond (ok : bool)   (* [dns_not_working.clear()] or [.set()] *)
| CExit.                (* past the loop *)

#[global] Instance dns_checker_pc_eq_dec : EqDecision dns_checker_pc.
Proof. solve_decision. Defined.

(** A [Model] object together with the threads it started.  The first
    twelve fields are the attributes set by [__init__]; [words] is what
    is left of the iterable ([inl e] when iterating it raises [e]);
    [view] records whether a view was given. *)
Record model := {
  base_domain : string;
  view : bool;
  words : result (list string);
  thread_limit : Z;
  found_subdomains : gset string;
  checked_subdomains_count : Z;
  latest : option string;
  subdomain_threads : gset nat;
  dns_working : bool;
  dns_not_working : bool;
  complete_bruteforcing : bool;
  start_time : Z;                      (* microseconds *)
  threads : list check_domain_pc;      (* every thread started, by number *)
  bruteforce_thread : bruteforce_pc;
  dns_checker_thread : dns_checker_pc;
  calls : list view_call               (* oldest first *)
}.

Definition set_words v m :=
  {| base_domain := base_domain m; view := view m; words := v;
     thread_limit := thread_limit m; found_subdomains := found_subdomains m;
     checked_subdomains_count := checked_subdomains_count m; latest := latest m;
     subdomain_threads := subdomain_threads m; dns_working := dns_working m;
     dns_not_working := dns_not_working m;
     complete_bruteforcing := complete_bruteforcing m; start_time := start_time m;
     threads := threads m; bruteforce_thread := bruteforce_thread m;
     dns_checker_thread := dns_checker_thread m; calls := calls m |}.

Definition set_found_subdomains v m :=
  {| base_domain := base_domain m; view := view m; words := words m;
     thread_limit := thread_limit m; found_subdomains := v;
     checked_subdomains_count := checked_subdomains_count m; latest := latest m;
     subdomain_threads := subdomain_threads m; dns_working := dns_working m;
     dns_not_working := dns_not_working m;
     complete_bruteforcing := complete_bruteforcing m; start_time := start_time m;
     threads := threads m; bruteforce_thread := bruteforce_thread m;
     dns_checker_thread := dns_checker_thread m; calls := calls m |}.

Definition set_checked_subdomains_count v m :=
  {| base_domain := base_domain m; view := view m; words := words m;
     thread_limit := thread_limit m; found_subdomains := found_subdomains m;
     checked_subdomains_count := v; latest := latest m;
     subdomain_threads := subdomain_threads m; dns_working := dns_working m;
     dns_not_working := dns_not_working m;
     complete_bruteforcing := complete_bruteforcing m; start_time := start_time m;
     threads := threads m; bruteforce_thread := bruteforce_thread m;
     dns_checker_thread := dns_checker_thread m; calls := calls m |}.

Definition set_latest v m :=
  {| base_domain := base_domain m; view := view m; words := words m;
     thread_limit := thread_limit m; found_subdomains := found_subdomains m;
     checked_subdomains_count := checked_subdomains_count m; latest := v;
     subdomain_threads := subdomain_threads m; dns_working := dns_working m;
     dns_not_working := dns_not_working m;
     complete_bruteforcing := complete_bruteforcing m; start_time := start_time m;
     threads := threads m; bruteforce_thread := bruteforce_thread m;
     dns_checker_thread := dns_checker_thread m; calls := calls m |}.

Definition set_subdomain_threads v m :=
  {| base_domain := base_domain m; view := view m; words := words m;
     thread_limit := thread_limit m; found_subdomains := found_subdomains m;
     checked_subdomains_count := checked_subdomains_count m; latest := latest m;
     subdomain_threads := v; dns_working := dns_working m;
     dns_not_working := dns_not_working m;
     complete_bruteforcing := complete_bruteforcing m; start_time := start_time m;
     threads := threads m; bruteforce_thread := bruteforce_thread m;
     dns_checker_thread := dns_checker_thread m; calls := calls m |}.

Definition set_dns_working v m :=
  {| base_domain := base_domain m; view := view m; words := words m;
     thread_limit := thread_limit m; found_subdomains := found_subdomains m;
     checked_subdomains_count := checked_subdomains_count m; latest := latest m;
     subdomain_threads := subdomain_threads m; dns_working := v;
     dns_not_working := dns_not_working m;
     complete_bruteforcing := complete_bruteforcing m; start_time := start_time m;
     threads := threads m; bruteforce_thread := bruteforce_thread m;
     dns_checker_thread := dns_checker_thread m; calls := calls m |}.

Definition set_dns_not_working v m :=
  {| base_domain := base_domain m; view := view m; words := words m;
     thread_limit := thread_limit m; found_subdomains := found_subdomains m;
     checked_subdomains_count := checked_subdomains_count m; latest := latest m;
     subdomain_threads := subdomain_threads m; dns_working := dns_working m;
     dns_not_working := v;
     complete_bruteforcing := complete_bruteforcing m; start_time := start_time m;
     threads := threads m; bruteforce_thread := bruteforce_thread m;
     dns_checker_thread := dns_checker_thread m; calls := calls m |}.

Definition set_complete_bruteforcing v m :=
  {| base_domain := base_domain m; view := view m; words := words m;
     thread_limit := thread_limit m; found_subdomains := found_subdomains m;
     checked_subdomains_count := checked_subdomains_count m; latest := latest m;
     subdomain_threads := subdomain_threads m; dns_working := dns_working m;
     dns_not_working := dns_not_working m;
     complete_bruteforcing := v; start_time := start_time m;
     threads := threads m; bruteforce_thread := bruteforce_thread m;
     dns_checker_thread := dns_checker_thread m; calls := calls m |}.

Definition set_threads v m :=
  {| base_domain := base_domain m; view := view m; words := words m;
     thread_limit := thread_limit m; found_subdomains := found_subdomains m;
     checked_subdomains_count := checked_subdomains_count m; latest := latest m;
     subdomain_threads := subdomain_threads m; dns_working := dns_working m;
     dns_not_working := dns_not_working m;
     complete_bruteforcing := complete_bruteforcing m; start_time := start_time m;
     threads := v; bruteforce_thread := bruteforce_thread m;
     dns_checker_thread := dns_checker_thread m; calls := calls m |}.

Definition set_bruteforce_thread v m :=
  {| base_domain := base_domain m; view := view m; words := words m;
     thread_limit := thread_limit m; found_subdomains := found_subdomains m;
     checked_subdomains_count := checked_subdomains_count m; latest := latest m;
     subdomain_threads := subdomain_threads m; dns_working := dns_working m;
     dns_not_working := dns_not_working m;
     complete_bruteforcing := complete_bruteforcing m; start_time := start_time m;
     threads := threads m; bruteforce_thread := v;
     dns_checker_thread := dns_checker_thread m; calls := calls m |}.

Definition set_dns_checker_thread v m :=
  {| base_domain := base_domain m; view := view m; words := words m;
     thread_limit := thread_limit m; found_subdomains := found_subdomains m;
     checked_subdomains_count := checked_subdomains_count m; latest := latest m;
     subdomain_threads := subdomain_threads m; dns_working := dns_working m;
     dns_not_working := dns_not_working m;
     complete_bruteforcing := complete_bruteforcing m; start_time := start_time m;
     threads := threads m; bruteforce_thread := bruteforce_thread m;
     dns_checker_thread := v; calls := calls m |}.

Definition set_calls v m :=
  {| base_domain := base_domain m; view := view m; words := words m;
     thread_limit := thread_limit m; found_subdomains := found_subdomains m;
     checked_subdomains_count := checked_subdomains_count m; latest := latest m;
     subdomain_threads := subdomain_threads m; dns_working := dns_working m;
     dns_not_working := dns_not_working m;
     complete_bruteforcing := complete_bruteforcing m; start_time := start_time m;
     threads := threads m; bruteforce_thread := bruteforce_thread m;
     dns_checker_thread := dns_checker_thread m; calls := v |}.

(** [Model.__init__]: every attribute at its default, [dns_not_working]
    set, both daemon threads started, [start_time] read from the clock. *)
Definition init (domain : string) (has_view : bool)
    (ws : result (list string)) (limit : Z) (now : Z) : model :=
  {| base_domain := domain; view := has_view; words := ws;
     thread_limit := limit; found_subdomains := ∅;
     checked_subdomains_count := 0; latest := None;
     subdomain_threads := ∅; dns_working := false;
     dns_not_working := true;
     complete_bruteforcing := false; start_time := now;
     threads := []; bruteforce_thread := PFor;
     dns_checker_thread := CTest; calls := [] |}.

(** [thread.join()] returns only once the thread has terminated. *)
Definition terminated (m : model) (t : nat) : bool :=
  bool_decide (threads m !! t = Some TDone).

(** One step of a [check_domain] thread; [answer] is what
    [domain_exists] returns if it is asked now. *)
Definition check_domain_step (t : nat) (answer : bool) (m : model) : model :=
  match threads m !! t with
  | Some (TResolve domain) =>
      set_threads (<[t := if answer then TAdd domain else TDone]> (threads m)) m
  | Some (TAdd domain) =>
      set_threads (<[t := if view m then TNotify domain else TDone]> (threads m))
        (set_found_subdomains ({[domain]} ∪ found_subdomains m) m)
  | Some (TNotify domain) =>
      set_threads (<[t := TDone]> (threads m))
        (set_calls (calls m ++ [found_subdomain domain]) m)
  | Some TDone | None => m
  end.

(** [check_domain] run from start to end without interruption. *)
Definition check_domain (domain : string) (answer : bool) (m : model) : model :=
  if answer then
    let m := set_found_subdomains ({[domain]} ∪ found_subdomains m) m in
    if view m then set_calls (calls m ++ [found_subdomain domain]) m else m
  else m.

(** One step of the [bruteforce] thread.  [pick] is the element
    [set.pop()] returns when it is called; a step that is blocked (a
    [wait] on a clear event, a [join] on a running thread) leaves the
    state as it is. *)
Definition bruteforce_step (pick : nat) (m : model) : model :=
  match bruteforce_thread m with
  | PFor =>
      match words m with
      | inl e => set_bruteforce_thread (PCrashed e) m
      | inr [] =>
          set_bruteforce_thread (PDrain (elements (subdomain_threads m))) m
      | inr (word :: rest) =>
          set_bruteforce_thread (PWait word) (set_words (inr rest) m)
      end
  | PWait word =>
      if dns_working m then set_bruteforce_thread (PStart word) m else m
  | PStart word =>
      let subdomain := strip_sp_nl (word ++ "." ++ base_domain m) in
      set_bruteforce_thread (PAdd subdomain (length (threads m)))
        (set_threads (threads m ++ [TResolve subdomain]) m)
  | PAdd subdomain t =>
      set_bruteforce_thread (PLimit subdomain)
        (set_subdomain_threads ({[t]} ∪ subdomain_threads m) m)
  | PLimit subdomain =>
      if bool_decide (thread_limit m < Z.of_nat (size (subdomain_threads m)))
      then
        if bool_decide (subdomain_threads m = ∅)
        then set_bruteforce_thread (PCrashed KeyError) m
        else if bool_decide (pick ∈ subdomain_threads m)
        then set_bruteforce_thread (PJoin subdomain pick)
               (set_subdomain_threads (subdomain_threads m ∖ {[pick]}) m)
        else m
      else set_bruteforce_thread (PLatest subdomain) m
  | PJoin subdomain t =>
      if terminated m t then set_bruteforce_thread (PLimit subdomain) m else m
  | PLatest subdomain =>
      set_bruteforce_thread PCount (set_latest (Some subdomain) m)
  | PCount =>
      set_bruteforce_thread PFor
        (set_checked_subdomains_count (checked_subdomains_count m + 1) m)
  | PDrain [] => set_bruteforce_thread PSet m
  | PDrain (t :: rest) =>
      if terminated m t then set_bruteforce_thread (PDrain rest) m else m
  | PSet =>
      set_bruteforce_thread PView (set_complete_bruteforcing true m)
  | PView =>
      set_bruteforce_thread PDone
        (if view m
         then set_calls (calls m ++ [completed (found_subdomains m)]) m
         else m)
  | PDone | PCrashed _ => m
  end.

(** One step of the [dns_checker] thread. *)
Definition dns_checker_step (answer : bool) (m : model) : model :=
  match dns_checker_thread m with
  | CTest =>
      set_dns_checker_thread
        (if complete_bruteforcing m then CExit else CProbe) m
  | CProbe => set_dns_checker_thread (CFirst answer) m
  | CFirst ok => set_dns_checker_thread (CSecond ok) (set_dns_working ok m)
  | CSecond ok =>
      set_dns_checker_thread CTest (set_dns_not_working (negb ok) m)
  | CExit => m
  end.

(** What the scheduler and the network decide at each step. *)
Inductive action :=
| run_bruteforce (pick : nat)
| run_check_domain (t : nat) (answer : bool)
| run_dns_checker (answer : bool).

Definition step (m : model) (a : action) : model :=
  match a with
  | run_bruteforce pick => bruteforce_step pick m
  | run_check_domain t answer => check_domain_step t answer m
  | run_dns_checker answer => dns_checker_step answer m
  end.

(** A run of the engine under a schedule. *)
Definition exec (m : model) (schedule : list action) : model :=
  fold_left step schedule m.

(** The number of resolution attempts started and not yet finished. *)
Definition in_flight (m : model) : nat :=
  length (filter (fun st => st ≠ TDone) (threads m)).

(** The number of candidates handed to a [check_domain] thread so far. *)
Definition dispatched (m : model) : nat := length (threads m).

End Model.

(** ** Candidate sources and status: class [Controller] *)

Module Controller.

(** The files the program can open: name to content. *)
Definition filesystem := string -> option string.

(** The loop of [get_words_from_file] over the lines of the file, with
    its [found] flag. *)
Fixpoint get_words_loop (start_from : option string) (found : bool)
    (lines : list string) : list string :=
  match lines with
  | [] => []
  | line :: rest =>
      let word := strip_sp_nl line in
      let found := if bool_decide (Some word = start_from) then true else found in
      if bool_decide (start_from = None) || found
      then word :: get_words_loop start_from found rest
      else get_words_loop start_from found rest
  end.

(** [get_words_from_file]: everything the generator yields, or the
    exception [open] raises when the generator is first advanced. *)
Definition get_words_from_file (fs : filesystem) (file_name : string)
    (start_from : option string) : result (list string) :=
  match fs file_name with
  | None => raise FileNotFoundError
  | Some content => ret (get_words_loop start_from false (file_lines content))
  end.

(** The body of the [for i in range(letter_count)] loop of
    [generate_word]: the list to append to [letters]. *)
Definition letters_at (start_from : option string) (alphabet : string)
    (i : nat) : result (list ascii) :=
  try_except_IndexError
    (do first <- subscript start_from i;
     do k <- str_index first alphabet;
     ret (list_ascii_of_string (slice_from k alphabet)))
    (ret (list_ascii_of_string alphabet)).

Fixpoint generate_letters (start_from : option string) (alphabet : string)
    (indices : list nat) (letters : list (list ascii)) : result (list (list ascii)) :=
  match indices with
  | [] => ret letters
  | i :: rest =>
      do l <- letters_at start_from alphabet i;
      generate_letters start_from alphabet rest (letters ++ [l])
  end.

(** [generate_word]: the words of the returned generator, in order, or
    the exception raised while the per-position lists are built. *)
Definition generate_word (letter_count : Z) (start_from : option string)
    (alphabet : string) : result (list string) :=
  do letters <- generate_letters start_from alphabet (range letter_count) [];
  ret (map string_of_list_ascii (product letters)).

(** The dictionary returned by [current_status]; [time] is kept as the
    elapsed microseconds rather than their rendering. *)
Record status := {
  time : Z;
  latest_subdomain : option string;
  count : Z;
  subdomains_per_second : Z;
  subdomain_threads_count : nat
}.

(** [count / elapsed.total_seconds()] then [round]: dividing by a zero
    float raises. *)
Definition per_second (count elapsed : Z) : result Z :=
  if elapsed =? 0 then raise ZeroDivisionError
  else ret (round_div (count * 1000000) elapsed).

(** [current_status]; the clock is read twice, first for ["time"], then
    for ["subdomains/second"]. *)
Definition current_status (m : Model.model) (now1 now2 : Z) : result status :=
  let t := now1 - Model.start_time m in
  let l := Model.latest m in
  let c := Model.checked_subdomains_count m in
  do r <- per_second (Model.checked_subdomains_count m) (now2 - Model.start_time m);
  ret {| time := t; latest_subdomain := l; count := c;
         subdomains_per_second := r;
         subdomain_threads_count := size (Model.subdomain_threads m) |}.

End Controller.

(** ** Start-up: [main] *)

(** The parsed command line. *)
Record arguments := {
  arg_domain : string;
  arg_file : option string;
  arg_generator : option Z;
  arg_from : option string;
  arg_output : option string;
  arg_thread_limit : Z
}.

(** [x if x else None] on an optional string. *)
Definition if_truthy (x : option string) : option string :=
  match x with
  | Some EmptyString => None
  | other => other
  end.

(** [main] up to the construction of the [Model]: the word source is
    chosen, [generate_word] runs at once, [get_words_from_file] only
    when the engine first asks for a word. *)
Definition main (fs : Controller.filesystem) (now : Z) (args : arguments)
  : result Model.model :=
  let start_from := if_truthy (arg_from args) in
  do ws <-
    match if_truthy (arg_file args) with
    | Some file_name =>
        ret (Controller.get_words_from_file fs file_name start_from)
    | None =>
        match arg_generator args with
        | Some n =>
            if n =? 0 then raise ValueError
            else do l <- Controller.generate_word n start_from ascii_lowercase;
                 ret (inr l)
        | None => raise ValueError
        end
    end;
  ret (Model.init (arg_domain args) true ws (arg_thread_limit args) now).

(** * Vocabulary of the properties *)

(** What is left of a list of words from the first occurrence of
    [marker] on. *)
Fixpoint resume_at (marker : string) (ws : list string) : list string :=
  match ws with
  | [] => []
  | w :: rest => if bool_decide (w = marker) then ws else resume_at marker rest
  end.

(** The file written by the repository's own test. *)
Definition testfile_content : string := "Lorem
ipsum
dolor
sit
amet".

Definition testfile : Controller.filesystem := fun name =>
  if bool_decide (name = "testfile.txt") then Some testfile_content else None.

(** Strictly increasing in the lexicographic order of strings. *)
Fixpoint sorted_strict (ws : list string) : bool :=
  match ws with
  | [] => true
  | w :: rest =>
      match rest with
      | [] => true
      | w' :: _ => String.ltb w w' && sorted_strict rest
      end
  end.

(** What is checked of the sequence a generator yields: how many words,
    the first [k] of them, the word at position [j], and whether they
    come in lexicographic order. *)
Definition observe (k : nat) (j : Z) (r : result (list string))
  : result (Z * list string * option string * bool) :=
  do l <- r;
  ret (Z.of_nat (length l), take k l, l !! Z.to_nat j, sorted_strict l).

(** Position [i] of a generated word holds [c]: from the resume character
    to the end of the alphabet where the resume string has a character,
    anywhere in the alphabet beyond it. *)
Definition from_resume_char (start_from alphabet : string) (i : nat)
    (c : ascii) : Prop :=
  match String.get i start_from with
  | Some r =>
      exists k, str_index r alphabet = inr k
                /\ c ∈ list_ascii_of_string (slice_from k alphabet)
  | None => c ∈ list_ascii_of_string alphabet
  end.

(** The resume string has a character outside the alphabet. *)
Definition malformed (start_from alphabet : string) : bool :=
  existsb (fun c => negb (mem_ascii c (list_ascii_of_string alphabet)))
    (list_ascii_of_string start_from).

(** The same, among the first [letter_count] characters only. *)
Definition malformed_at (start_from alphabet : string) (i : nat) : bool :=
  match String.get i start_from with
  | Some c => negb (mem_ascii c (list_ascii_of_string alphabet))
  | None => false
  end.

Definition malformed_within (letter_count : Z) (start_from alphabet : string)
  : bool :=
  existsb (malformed_at start_from alphabet) (range letter_count).

(** A command line asking for generated words of [n] letters from [sf]. *)
Definition generator_args (n : Z) (sf : string) : arguments :=
  {| arg_domain := "example.com"; arg_file := None; arg_generator := Some n;
     arg_from := Some sf; arg_output := None; arg_thread_limit := 100 |}.

(** *** Invariants of the engine *)

Section invariants.
Import Model.

(** The most the in-flight count can reach. *)
Definition cap (m : model) : Z := Z.max 0 (thread_limit m) + 1.

(** Who will still join thread [t]: it sits in [subdomain_threads], or it
    is the thread just started or just popped, or it is among those the
    final loop has yet to join. *)
Definition tracked (m : model) (t : nat) : Prop :=
  match bruteforce_thread m with
  | PAdd _ t' | PJoin _ t' => t ∈ subdomain_threads m \/ t = t'
  | PDrain ts => t ∈ ts /\ t ∈ subdomain_threads m
  | PSet | PView | PDone => False
  | _ => t ∈ subdomain_threads m
  end.

(** How large [subdomain_threads] can be at each point of [bruteforce]. *)
Definition size_ok (m : model) : Prop :=
  match bruteforce_thread m with
  | PLimit _ => Z.of_nat (size (subdomain_threads m)) <= cap m
  | _ => Z.of_nat (size (subdomain_threads m)) <= cap m - 1
  end.

Definition threads_ok (m : model) : Prop :=
  size_ok m
  /\ forall t st, threads m !! t = Some st -> st <> TDone -> tracked m t.

Definition is_completed (c : view_call) : bool :=
  match c with
  | completed _ => true
  | found_subdomain _ => false
  end.

(** [view.completed] has been called exactly when [bruteforce] has
    returned, as the last call, with the set as it now is. *)
Definition completion_ok (m : model) : Prop :=
  (complete_bruteforcing m = true
   <-> bruteforce_thread m = PView \/ bruteforce_thread m = PDone)
  /\ match bruteforce_thread m, view m with
     | PDone, true =>
         exists pre, calls m = (pre ++ [completed (found_subdomains m)])%list
                     /\ Forall (fun c => is_completed c = false) pre
     | _, _ => Forall (fun c => is_completed c = false) (calls m)
     end.

(** Between the start of a candidate's thread and the increment that
    counts it. *)
Definition started_not_counted (pc : bruteforce_pc) : bool :=
  match pc with
  | PAdd _ _ | PLimit _ | PJoin _ _ | PLatest _ | PCount => true
  | _ => false
  end.

Definition count_ok (m : model) : Prop :=
  match bruteforce_thread m with
  | PCrashed _ =>
      checked_subdomains_count m = Z.of_nat (dispatched m)
      \/ checked_subdomains_count m = Z.of_nat (dispatched m) - 1
  | pc =>
      checked_subdomains_count m
      = Z.of_nat (dispatched m) - (if started_not_counted pc then 1 else 0)
  end.

(** [dns_working] is clear before every step of the schedule. *)
Fixpoint unhealthy_throughout (m : model) (schedule : list action) : bool :=
  match schedule with
  | [] => true
  | a :: rest => negb (dns_working m) && unhealthy_throughout (step m a) rest
  end.

(** What [bruteforce] can still do without passing [dns_working.wait()]
    again: start one more thread, count one more candidate. *)
Definition may_dispatch (pc : bruteforce_pc) : Z :=
  match pc with
  | PStart _ => 1
  | _ => 0
  end.

Definition may_count (pc : bruteforce_pc) : Z :=
  match pc with
  | PStart _ => 1
  | pc => if started_not_counted pc then 1 else 0
  end.

(** A healthy DNS: three steps of [dns_checker] that set [dns_working]. *)
Definition dns_up : list action :=
  [run_dns_checker true; run_dns_checker true; run_dns_checker true].

(** [k] steps of [bruteforce], popping thread [pick] if it pops. *)
Definition bruteforce_steps (k pick : nat) : list action :=
  replicate k (run_bruteforce pick).

(** A thread that runs [check_domain] to its end on a name that resolves
    or not. *)
Definition check_domain_run (t : nat) (answer : bool) : list action :=
  replicate 3 (run_check_domain t answer).

(** The DNS stops answering: four steps of [dns_checker], from where
    [dns_up] left it, that clear [dns_working]. *)
Definition dns_down : list action :=
  [run_dns_checker false; run_dns_checker false; run_dns_checker false;
   run_dns_checker false].

(** The run of the repository's end-to-end test, with a view: of the
    four words only maps and drive resolve. *)
Definition test_bruteforce_schedule : list action :=
  dns_up
  ++ bruteforce_steps 7 0 ++ check_domain_run 0 false
  ++ bruteforce_steps 7 0 ++ check_domain_run 1 true
  ++ bruteforce_steps 7 0 ++ check_domain_run 2 false
  ++ bruteforce_steps 7 0 ++ check_domain_run 3 true
  ++ bruteforce_steps 8 0.

Definition test_bruteforce_init : model :=
  init "google.com" true (inr ["cieufhcne"; "maps"; "oicunf"; "drive"]) 100 0.

End invariants.

(** *** Proof automation *)

Import Model.

(** Reduce the field accesses of an updated state, and nothing else. *)
Ltac msimpl :=
  cbn [base_domain view words thread_limit found_subdomains
       checked_subdomains_count latest subdomain_threads dns_working
       dns_not_working complete_bruteforcing start_time threads
       bruteforce_thread dns_checker_thread calls
       set_words set_found_subdomains set_checked_subdomains_count set_latest
       set_subdomain_threads set_dns_working set_dns_not_working
       set_complete_bruteforcing set_threads set_bruteforce_thread
       set_dns_checker_thread set_calls init dispatched] in *.

(** * Vocabulary of the further properties *)

From stdpp Require sorting.


(** A command line asking for generated words, no resume string given. *)
Definition plain_generator_args (n : Z) : arguments :=
  {| arg_domain := "example.com"; arg_file := None; arg_generator := Some n;
     arg_from := None; arg_output := None; arg_thread_limit := 100 |}.

(** [s.rstrip(chars)] on the characters of [s], as [strip] does it. *)
Definition rstrip_chars (chars : list ascii) (s : list ascii) : list ascii :=
  rev (lstrip_chars chars (rev s)).

(** The order of characters and the lexicographic order of words. *)
Definition ascii_lt (a b : ascii) : Prop := Ascii.ltb a b = true.
Definition string_lt (s t : string) : Prop := String.ltb s t = true.

Section more_invariants.
Import Model.

(** The name [bruteforce] checks for a word. *)
Definition candidate (domain word : string) : string :=
  strip_sp_nl (word ++ "." ++ domain).

(** The network answers as [resolver] says: whenever a thread is about
    to ask for a name, the answer it is given is the resolver's. *)
Definition step_agrees (resolver : string -> bool) (m : model) (a : action)
  : bool :=
  match a with
  | run_check_domain t answer =>
      match threads m !! t with
      | Some (TResolve domain) => bool_decide (answer = resolver domain)
      | _ => true
      end
  | _ => true
  end.

Fixpoint answers_agree (resolver : string -> bool) (m : model)
    (schedule : list action) : bool :=
  match schedule with
  | [] => true
  | a :: rest =>
      step_agrees resolver m a && answers_agree resolver (step m a) rest
  end.

(** Where a thread stands with respect to the name [d] it was started
    for. *)
Definition thread_ok (resolver : string -> bool) (m : model)
    (st : check_domain_pc) (d : string) : Prop :=
  match st with
  | TResolve d' => d' = d
  | TAdd d' => d' = d /\ resolver d = true
  | TNotify d' => d' = d /\ resolver d = true /\ d ∈ found_subdomains m
  | TDone =>
      resolver d = true ->
      d ∈ found_subdomains m
      /\ (view m = true -> found_subdomain d ∈ calls m)
  end.

(** How far [bruteforce] is in the list of words it was given. *)
Definition position_ok (ws0 : list string) (m : model) : Prop :=
  match bruteforce_thread m with
  | PWait w | PStart w =>
      ws0 !! dispatched m = Some w
      /\ words m = inr (drop (S (dispatched m)) ws0)
  | PDrain _ | PSet | PView | PDone =>
      words m = inr [] /\ dispatched m = length ws0
  | PCrashed _ => True
  | _ => words m = inr (drop (dispatched m) ws0)
  end.

(** The engine against its word list and the resolver: thread [i] is
    the attempt for word [i], the set holds only resolving candidates,
    and the view has been told only of names in the set. *)
Definition source_ok (domain : string) (ws0 : list string)
    (resolver : string -> bool) (m : model) : Prop :=
  base_domain m = domain
  /\ position_ok ws0 m
  /\ (forall i st, threads m !! i = Some st ->
        exists w, ws0 !! i = Some w
                  /\ thread_ok resolver m st (candidate domain w))
  /\ (forall d, d ∈ found_subdomains m ->
        exists w, w ∈ ws0 /\ d = candidate domain w /\ resolver d = true)
  /\ (forall d, found_subdomain d ∈ calls m -> d ∈ found_subdomains m).

(** The resolver of the repository's end-to-end test. *)
Definition test_resolver (d : string) : bool :=
  bool_decide (d = "maps.google.com" \/ d = "drive.google.com").

(** With a negative [thread_limit]: nothing is ever counted, and the
    first thread started is the last. *)
Definition negative_limit_ok (ws : result (list string)) (m : model) : Prop :=
  checked_subdomains_count m = 0
  /\ match bruteforce_thread m with
     | PFor => dispatched m = 0%nat /\ words m = ws
     | PWait _ | PStart _ => dispatched m = 0%nat
     | PAdd _ _ | PLimit _ | PJoin _ _ => dispatched m = 1%nat
     | PLatest _ | PCount => False
     | PDrain _ | PSet | PView | PDone => ws = inr [] /\ dispatched m = 0%nat
     | PCrashed _ => (dispatched m <= 1)%nat
     end.


(** The two events of [dns_checker] mirror each other, except between
    its two updates. *)
Definition events_ok (m : model) : Prop :=
  match dns_checker_thread m with
  | CSecond ok => dns_working m = ok
  | _ => dns_not_working m = negb (dns_working m)
  end.

End more_invariants.

(** * The view's event listeners: [Controller.__init__] and [event_listener] *)

Module Listeners.

(** Where an [event_listener] thread stands. *)
Inductive event_listener_pc :=
| LTest     (* [while not completed.is_set()] *)
| LBusy     (* [while event.is_set(): time.sleep(0.1)] *)
| LWait     (* [event.wait(1)]: returns once set, or after a second *)
| LCheck    (* [if event.is_set(): action()] *)
| LExit.    (* past the loop *)

#[global] Instance event_listener_pc_eq_dec : EqDecision event_listener_pc.
Proof. solve_decision. Defined.

(** The two actions the listeners call on the view. *)
Inductive notice :=
| dns_working_notice        (* [view.dns_working()]: RESUMED *)
| dns_not_working_notice.   (* [view.dns_not_working()]: PAUSED *)

#[global] Instance notice_eq_dec : EqDecision notice.
Proof. solve_decision. Defined.

(** One step of [event_listener], given what the two events read now:
    where it goes, and whether [action] is called. *)
Definition event_listener_step (completed event : bool)
    (pc : event_listener_pc) : event_listener_pc * bool :=
  match pc with
  | LTest => (if completed then LExit else LBusy, false)
  | LBusy => (if event then LBusy else LWait, false)
  | LWait => (LCheck, false)
  | LCheck => (LTest, event)
  | LExit => (LExit, false)
  end.

(** A [Controller]: its model, the two listener threads (absent without
    a view) and the notices they gave the view, oldest first. *)
Record controller := {
  model : Model.model;
  working_listener : option event_listener_pc;
  not_working_listener : option event_listener_pc;
  notices : list notice
}.

(** [Controller.__init__] up to [view.start()]. *)
Definition init (domain : option string) (has_view : bool)
    (ws : result (list string)) (limit now : Z) : result controller :=
  match domain with
  | None => raise TypeError
  | Some d =>
      ret {| model := Model.init d has_view ws limit now;
             working_listener := if has_view then Some LTest else None;
             not_working_listener := if has_view then Some LTest else None;
             notices := [] |}
  end.

(** What the scheduler decides: a thread of the model, or one of the
    listeners. *)
Inductive action :=
| run_model (a : Model.action)
| run_working_listener
| run_not_working_listener.

Definition step (c : controller) (a : action) : controller :=
  match a with
  | run_model a =>
      {| model := Model.step (model c) a;
         working_listener := working_listener c;
         not_working_listener := not_working_listener c;
         notices := notices c |}
  | run_working_listener =>
      match working_listener c with
      | None => c
      | Some pc =>
          let '(pc', fires) :=
            event_listener_step (Model.complete_bruteforcing (model c))
              (Model.dns_working (model c)) pc in
          {| model := model c;
             working_listener := Some pc';
             not_working_listener := not_working_listener c;
             notices := if fires then notices c ++ [dns_working_notice]
                        else notices c |}
      end
  | run_not_working_listener =>
      match not_working_listener c with
      | None => c
      | Some pc =>
          let '(pc', fires) :=
            event_listener_step (Model.complete_bruteforcing (model c))
              (Model.dns_not_working (model c)) pc in
          {| model := model c;
             working_listener := working_listener c;
             not_working_listener := Some pc';
             notices := if fires then notices c ++ [dns_not_working_notice]
                        else notices c |}
      end
  end.

Definition exec (c : controller) (schedule : list action) : controller :=
  fold_left step schedule c.

(** How many times the view was given a notice. *)
Definition told (n : notice) (c : controller) : Z :=
  Z.of_nat (length (filter (fun n' => n' = n) (notices c))).

(** How many more times a listener can call its action while its event
    stays set: once if it is already past its busy loop. *)
Definition may_fire (pc : option event_listener_pc) : Z :=
  match pc with
  | Some LWait | Some LCheck => 1
  | _ => 0
  end.

(** How many more times a listener can call its action once
    [complete_bruteforcing] is set: once unless it is at the loop test. *)
Definition may_fire_completed (pc : option event_listener_pc) : Z :=
  match pc with
  | Some LBusy | Some LWait | Some LCheck => 1
  | _ => 0
  end.

(** [dns_not_working] is set before every step of the schedule. *)
Fixpoint paused_throughout (c : controller) (schedule : list action) : bool :=
  match schedule with
  | [] => true
  | a :: rest =>
      Model.dns_not_working (model c) && paused_throughout (step c a) rest
  end.

(** [complete_bruteforcing] is set before the schedule starts. *)
Definition completed_before (c : controller) : bool :=
  Model.complete_bruteforcing (model c).

(** The base domain never resolves: every probe of [dns_checker] in the
    schedule fails. *)
Definition never_resolves (schedule : list action) : bool :=
  forallb (fun a => match a with
                    | run_model (Model.run_dns_checker true) => false
                    | _ => true
                    end) schedule.

(** The state of an engine whose base domain has never resolved. *)
Definition silent (c : controller) : Prop :=
  Model.dns_working (model c) = false
  /\ Model.dns_not_working (model c) = true
  /\ match Model.dns_checker_thread (model c) with
     | Model.CFirst ok | Model.CSecond ok => ok = false
     | _ => True
     end
  /\ Model.threads (model c) = []
  /\ match Model.bruteforce_thread (model c) with
     | Model.PStart _ | Model.PAdd _ _ | Model.PLimit _ | Model.PJoin _ _
     | Model.PLatest _ | Model.PCount => False
     | _ => True
     end
  /\ match not_working_listener c with
     | Some LWait | Some LCheck => False
     | _ => True
     end
  /\ notices c = [].

(** A controller with a view, just constructed. *)
Definition example_controller : controller :=
  {| model := Model.init "example.com" true (inr ["www"; "mail"]) 100 0;
     working_listener := Some LTest;
     not_working_listener := Some LTest;
     notices := [] |}.

(** A controller whose engine had no word to check and has set
    [complete_bruteforcing], its listeners being in their loops. *)
Definition finished_controller : controller :=
  exec {| model := Model.init "example.com" true (inr []) 100 0;
          working_listener := Some LTest;
          not_working_listener := Some LTest;
          notices := [] |}
    [run_working_listener; run_working_listener; run_not_working_listener;
     run_model (Model.run_bruteforce 0); run_model (Model.run_bruteforce 0);
     run_model (Model.run_bruteforce 0)].

End Listeners.

Section status_invariants.
Import Model.

(** The candidate of the word before position [k], if any. *)
Definition last_candidate (domain : string) (ws0 : list string) (k : nat)
  : option string :=
  match k with
  | O => None
  | S j => candidate domain <$> ws0 !! j
  end.

(** [latest] is the candidate of the last word counted; the name held
    by [bruteforce] while it starts and limits threads is the candidate
    of the word just dispatched. *)
Definition latest_ok (domain : string) (ws0 : list string) (m : model) : Prop :=
  base_domain m = domain
  /\ match bruteforce_thread m with
     | PAdd sub _ | PLimit sub | PJoin sub _ | PLatest sub =>
         last_candidate domain ws0 (dispatched m) = Some sub
         /\ latest m = last_candidate domain ws0 (dispatched m - 1)
     | PCount => latest m = last_candidate domain ws0 (dispatched m)
                 /\ (0 < dispatched m)%nat
     | PCrashed _ => True
     | _ => latest m = last_candidate domain ws0 (dispatched m)
     end.

End status_invariants.

(** * Properties *)

(** ** The file source *)

Section file_source.
Import Controller.

Lemma get_words_loop_found start_from lines :
  get_words_loop start_from true lines = map strip_sp_nl lines.
Proof.
  induction lines as [|line rest IH]; simpl; [done|].
  destruct (bool_decide (Some (strip_sp_nl line) = start_from));
    rewrite orb_true_r; by rewrite IH.
Qed.

Lemma get_words_loop_None lines :
  get_words_loop None false lines = map strip_sp_nl lines.
Proof.
  induction lines as [|line rest IH]; simpl; [done|].
  by rewrite IH.
Qed.

Lemma get_words_loop_Some marker lines :
  get_words_loop (Some marker) false lines
  = resume_at marker (map strip_sp_nl lines).
Proof.
  induction lines as [|line rest IH]; simpl; [done|].
  destruct (decide (strip_sp_nl line = marker)) as [Heq|Hne].
  - rewrite !bool_decide_eq_true_2 by congruence. simpl.
    by rewrite get_words_loop_found.
  - rewrite !bool_decide_eq_false_2 by congruence. simpl. apply IH.
Qed.

Lemma resume_at_absent marker ws :
  marker ∉ ws -> resume_at marker ws = [].
Proof.
  induction ws as [|w rest IH]; simpl; [done|].
  intros Hn. rewrite bool_decide_eq_false_2.
  - apply IH. set_solver.
  - set_solver.
Qed.

(** C8.  When the trimmed lines of the file are Lorem, ipsum, dolor, sit,
    amet, [get_words_from_file] with marker dolor yields dolor, sit, amet,
    and without a marker yields the five trimmed lines in file order. *)
Theorem get_words_from_file_lorem (fs : filesystem) (file_name content : string) :
  fs file_name = Some content ->
  map strip_sp_nl (file_lines content)
    = ["Lorem"; "ipsum"; "dolor"; "sit"; "amet"] ->
  get_words_from_file fs file_name (Some "dolor")
    = inr ["dolor"; "sit"; "amet"]
  /\ get_words_from_file fs file_name None
    = inr ["Lorem"; "ipsum"; "dolor"; "sit"; "amet"].
Proof.
  intros Hfs Hlines. unfold get_words_from_file. rewrite Hfs.
  rewrite get_words_loop_Some, get_words_loop_None, Hlines.
  split; reflexivity.
Qed.

Lemma get_words_from_file_lorem_witness :
  get_words_from_file testfile "testfile.txt" (Some "dolor")
    = inr ["dolor"; "sit"; "amet"]
  /\ get_words_from_file testfile "testfile.txt" None
    = inr ["Lorem"; "ipsum"; "dolor"; "sit"; "amet"].
Proof.
  apply (get_words_from_file_lorem testfile "testfile.txt" testfile_content); reflexivity.
Defined.

(** C10.  A marker equal to no trimmed line of the file makes
    [get_words_from_file] yield nothing, without raising. *)
Theorem get_words_from_file_no_match (fs : filesystem)
    (file_name content marker : string) :
  fs file_name = Some content ->
  (forall line, line ∈ file_lines content -> strip_sp_nl line <> marker) ->
  get_words_from_file fs file_name (Some marker) = inr [].
Proof.
  intros Hfs Hno. unfold get_words_from_file. rewrite Hfs.
  rewrite get_words_loop_Some, resume_at_absent; [done|].
  intros Hin. apply list_elem_of_fmap in Hin as (line & -> & Hline).
  by apply (Hno line).
Qed.

Lemma get_words_from_file_no_match_witness :
  get_words_from_file testfile "testfile.txt" (Some "lorem") = inr [].
Proof.
  apply (get_words_from_file_no_match testfile "testfile.txt" testfile_content "lorem"); [reflexivity|].
  intros line Hin. vm_compute in Hin.
  repeat (apply elem_of_cons in Hin as [-> | Hin]; [by vm_compute|]).
  by apply elem_of_nil in Hin.
Defined.

End file_source.

(** ** The generated source *)

Section generated_source.
Import Controller.

Lemma elem_of_product {A} (ls : list (list A)) (w : list A) :
  w ∈ product ls <-> Forall2 (fun c l => c ∈ l) w ls.
Proof.
  revert w. induction ls as [|l rest IH]; intros w; simpl.
  - rewrite list_elem_of_singleton. split.
    + intros ->. constructor.
    + by intros ->%Forall2_nil_inv_r.
  - rewrite list_elem_of_In, in_flat_map. split.
    + intros (c & Hc & Hw). apply in_map_iff in Hw as (w' & <- & Hw').
      constructor; [by apply list_elem_of_In|].
      by apply IH, list_elem_of_In.
    + intros Hall. apply Forall2_cons_inv_r in Hall as (c & w' & Hc & Hw' & ->).
      exists c. split; [by apply list_elem_of_In|].
      apply in_map, list_elem_of_In. by apply IH.
Qed.

Lemma str_index_error c alphabet e :
  str_index c alphabet = inl e -> e = ValueError.
Proof.
  induction alphabet as [|a r IH]; simpl.
  - by intros [= <-].
  - destruct (Ascii.eqb a c); [done|].
    destruct (str_index c r); simpl; [|done]. intros [= <-]. by apply IH.
Qed.

Lemma str_index_mem c alphabet :
  mem_ascii c (list_ascii_of_string alphabet) = false
  <-> str_index c alphabet = inl ValueError.
Proof.
  induction alphabet as [|a r IH]; simpl; [done|].
  rewrite (Ascii.eqb_sym c a).
  destruct (Ascii.eqb a c); simpl.
  - split; discriminate.
  - rewrite IH. destruct (str_index c r) as [e|k]; simpl; [|split; discriminate].
    split; congruence.
Qed.

Lemma letters_at_resume start_from alphabet i r k :
  String.get i start_from = Some r -> str_index r alphabet = inr k ->
  letters_at (Some start_from) alphabet i
  = inr (list_ascii_of_string (slice_from k alphabet)).
Proof. intros Hr Hk. unfold letters_at. simpl. by rewrite Hr; simpl; rewrite Hk. Qed.

Lemma letters_at_beyond start_from alphabet i :
  String.get i start_from = None ->
  letters_at (Some start_from) alphabet i = inr (list_ascii_of_string alphabet).
Proof. intros Hr. unfold letters_at. simpl. by rewrite Hr. Qed.

Lemma letters_at_outside start_from alphabet i r :
  String.get i start_from = Some r -> str_index r alphabet = inl ValueError ->
  letters_at (Some start_from) alphabet i = inl ValueError.
Proof. intros Hr Hk. unfold letters_at. simpl. by rewrite Hr; simpl; rewrite Hk. Qed.

(** Each position either has its list of letters or is malformed. *)
Lemma letters_at_cases start_from alphabet i :
  (malformed_at start_from alphabet i = true
   /\ letters_at (Some start_from) alphabet i = inl ValueError)
  \/ (malformed_at start_from alphabet i = false
      /\ exists l, letters_at (Some start_from) alphabet i = inr l
                   /\ forall c, c ∈ l <-> from_resume_char start_from alphabet i c).
Proof.
  unfold malformed_at, from_resume_char.
  destruct (String.get i start_from) as [r|] eqn:Hr.
  - destruct (str_index r alphabet) as [e|k] eqn:Hk.
    + pose proof (str_index_error _ _ _ Hk) as ->. left. split.
      * by apply negb_true_iff, str_index_mem.
      * by eapply letters_at_outside.
    + right. split.
      * apply negb_false_iff, not_false_iff_true. rewrite str_index_mem, Hk. done.
      * eexists. split; [by eapply letters_at_resume|].
        intros c. split; [by exists k|]. by intros (k' & [= <-] & Hc).
  - right. split; [done|]. eexists. split; [by apply letters_at_beyond|done].
Qed.

Lemma generate_letters_ok start_from alphabet indices acc :
  existsb (malformed_at start_from alphabet) indices = false ->
  exists ls,
    generate_letters (Some start_from) alphabet indices acc = inr (acc ++ ls)%list
    /\ Forall2 (fun i l => forall c,
                  c ∈ l <-> from_resume_char start_from alphabet i c)
         indices ls.
Proof.
  revert acc. induction indices as [|i rest IH]; intros acc; simpl.
  - intros _. exists []. by rewrite app_nil_r.
  - intros [Hi Hrest]%orb_false_elim.
    destruct (letters_at_cases start_from alphabet i)
      as [[Hm _]|[_ (l & Hl & Hspec)]]; [congruence|].
    rewrite Hl. simpl. destruct (IH (acc ++ [l])%list Hrest) as (ls & -> & Hls).
    exists (l :: ls). split; [by rewrite <- app_assoc|by constructor].
Qed.

Lemma generate_letters_malformed start_from alphabet indices acc :
  existsb (malformed_at start_from alphabet) indices = true ->
  generate_letters (Some start_from) alphabet indices acc = inl ValueError.
Proof.
  revert acc. induction indices as [|i rest IH]; intros acc; simpl; [done|].
  intros Hex.
  destruct (letters_at_cases start_from alphabet i)
    as [[_ ->]|[Hm (l & -> & _)]]; [done|].
  simpl. apply IH. by rewrite Hm in Hex.
Qed.

Lemma get_lookup (w : string) (i : nat) :
  String.get i w = list_ascii_of_string w !! i.
Proof.
  revert i. induction w as [|a r IH]; intros [|i]; simpl; auto.
Qed.

Lemma length_list_ascii (w : string) :
  length (list_ascii_of_string w) = String.length w.
Proof. induction w; simpl; congruence. Qed.

(** The words of a well-formed call, position by position. *)
Lemma generate_word_elem_of letter_count start_from alphabet l :
  generate_word letter_count (Some start_from) alphabet = inr l ->
  forall w, w ∈ l <->
    String.length w = Z.to_nat letter_count
    /\ forall i c, String.get i w = Some c ->
                   from_resume_char start_from alphabet i c.
Proof.
  unfold generate_word. intros Hgen w.
  destruct (existsb (malformed_at start_from alphabet) (range letter_count))
    eqn:Hm.
  { by rewrite (generate_letters_malformed _ _ _ _ Hm) in Hgen. }
  destruct (generate_letters_ok _ _ _ [] Hm) as (ls & Hls & Hall).
  rewrite Hls in Hgen. simpl in Hgen. injection Hgen as <-.
  assert (Hlen : length ls = Z.to_nat letter_count).
  { apply Forall2_length in Hall. unfold range in Hall.
    by rewrite length_seq in Hall. }
  rewrite list_elem_of_fmap. split.
  - intros (cs & -> & Hcs). apply elem_of_product in Hcs.
    rewrite <- (list_ascii_of_string_of_list_ascii cs) in Hcs.
    rewrite <- length_list_ascii. split.
    + apply Forall2_length in Hcs. congruence.
    + intros i c Hc. rewrite get_lookup in Hc.
      destruct (Forall2_lookup_l _ _ _ _ _ Hcs Hc) as (li & Hli & Hin).
      destruct (Forall2_lookup_r _ _ _ _ _ Hall Hli) as (j & Hj & Hspec).
      unfold range in Hj. apply lookup_seq in Hj as [-> _]. by apply Hspec.
  - intros [Hw Hpos]. exists (list_ascii_of_string w).
    split; [by rewrite string_of_list_ascii_of_string|].
    apply elem_of_product, Forall2_same_length_lookup.
    rewrite length_list_ascii. split; [congruence|].
    intros i c li Hc Hli.
    destruct (Forall2_lookup_r _ _ _ _ _ Hall Hli) as (j & Hj & Hspec).
    unfold range in Hj. apply lookup_seq in Hj as [-> _].
    apply Hspec, Hpos. by rewrite get_lookup.
Qed.

(** C6.  Over the lowercase alphabet with three letters the generator
    yields 17576 words in lexicographic order starting aaa, aab, aac;
    resumed at b it yields 16900; resumed at fjl it yields fjl, fjm, fjn
    and so on in order (after fjz comes fkl).  In general a word is
    yielded exactly when it has the requested length and each of its
    positions ranges from the resume character to the end of the
    alphabet, or over the whole alphabet beyond the resume string. *)
Theorem generate_word_lowercase :
  observe 3 17575 (generate_word 3 (Some "") ascii_lowercase)
    = inr (17576, ["aaa"; "aab"; "aac"], Some "zzz", true)
  /\ observe 3 0 (generate_word 3 (Some "b") ascii_lowercase)
    = inr (16900, ["baa"; "bab"; "bac"], Some "baa", true)
  /\ observe 3 15 (generate_word 3 (Some "fjl") ascii_lowercase)
    = inr (5355, ["fjl"; "fjm"; "fjn"], Some "fkl", true)
  /\ forall letter_count start_from alphabet l,
      generate_word letter_count (Some start_from) alphabet = inr l ->
      forall w, w ∈ l <->
        String.length w = Z.to_nat letter_count
        /\ forall i c, String.get i w = Some c ->
                       from_resume_char start_from alphabet i c.
Proof.
  split; [by vm_compute|]. split; [by vm_compute|]. split; [by vm_compute|].
  apply generate_word_elem_of.
Qed.

Lemma generate_word_lowercase_witness :
  "zy" ∈ ["yx"; "yy"; "yz"; "zx"; "zy"; "zz"].
Proof.
  apply (proj2 (proj2 (proj2 generate_word_lowercase))
           2 "yx" ascii_lowercase); [by vm_compute|].
  split; [reflexivity|].
  intros [|[|i]] c Hc; vm_compute in Hc; try discriminate;
    injection Hc as <-; unfold from_resume_char; simpl.
  - exists 24%nat. split; [reflexivity|]. vm_compute. set_solver.
  - exists 23%nat. split; [reflexivity|]. vm_compute. set_solver.
Defined.

(** C7, as the code has it.  [generate_word] raises [ValueError] exactly
    when one of the first [letter_count] characters of the resume string
    is outside the alphabet, and otherwise returns its words; when it
    raises, [main] raises too and no engine is constructed. *)
Theorem generate_word_malformed_iff (letter_count : Z)
    (start_from alphabet : string) :
  (if malformed_within letter_count start_from alphabet
   then generate_word letter_count (Some start_from) alphabet = inl ValueError
   else exists l, generate_word letter_count (Some start_from) alphabet = inr l)
  /\ forall fs now args,
      if_truthy (arg_file args) = None ->
      arg_generator args = Some letter_count ->
      arg_from args = Some start_from ->
      malformed_within letter_count start_from ascii_lowercase = true ->
      main fs now args = inl ValueError.
Proof.
  split.
  - unfold malformed_within, generate_word.
    destruct (existsb _ _) eqn:Hm.
    + by rewrite (generate_letters_malformed _ _ _ _ Hm).
    + destruct (generate_letters_ok _ _ _ [] Hm) as (ls & -> & _).
      simpl. eauto.
  - intros fs now args Hfile Hgen Hfrom Hm. unfold main.
    rewrite Hfile, Hgen, Hfrom.
    assert ((letter_count =? 0) = false) as ->.
    { apply Z.eqb_neq. intros ->. discriminate. }
    assert (if_truthy (Some start_from) = Some start_from) as ->.
    { destruct start_from; [|done]. unfold malformed_within in Hm.
      exfalso. revert Hm. generalize (range letter_count).
      induction l; simpl; [done|]. by destruct a. }
    unfold generate_word, malformed_within in *.
    by rewrite (generate_letters_malformed _ _ _ _ Hm).
Qed.

Lemma generate_word_malformed_iff_witness :
  main testfile 0 (generator_args 2 "a!") = inl ValueError.
Proof.
  apply (proj2 (generate_word_malformed_iff 2 "a!" ascii_lowercase));
    reflexivity.
Defined.

(** C7, as stated, fails: the resume string ab! has a character outside
    the lowercase alphabet, yet with two letters nothing is raised and
    the engine is constructed over the 650 words from ab on. *)
Lemma generate_word_malformed_accepted :
  malformed "ab!" ascii_lowercase = true
  /\ observe 2 0 (generate_word 2 (Some "ab!") ascii_lowercase)
     = inr (650, ["ab"; "ac"], Some "ab", true)
  /\ (do m <- main testfile 0 (generator_args 2 "ab!");
      ret (Model.words m, Model.bruteforce_thread m))
     = inr (generate_word 2 (Some "ab!") ascii_lowercase, Model.PFor).
Proof. by vm_compute. Qed.

End generated_source.

(** ** The status dictionary *)

Section status.
Import Controller.

(** C9, on the code.  [current_status] divides by the elapsed time with
    no test for zero: whenever the second clock reading equals
    [start_time], as it can right after construction, it raises
    [ZeroDivisionError], whatever the state of the engine. *)
Theorem current_status_zero_elapsed (m : Model.model) (now1 : Z) :
  current_status m now1 (Model.start_time m) = inl ZeroDivisionError.
Proof.
  unfold current_status, per_second. by rewrite Z.sub_diag.
Qed.

(** With a positive elapsed time the status is produced. *)
Lemma current_status_returns (m : Model.model) (now1 now2 : Z) :
  now2 <> Model.start_time m ->
  exists r, current_status m now1 now2 = inr r
            /\ count r = Model.checked_subdomains_count m
            /\ latest_subdomain r = Model.latest m.
Proof.
  intros Hne. unfold current_status, per_second.
  destruct (Z.eqb_spec (now2 - Model.start_time m) 0); [lia|].
  simpl. eauto.
Qed.

End status.

(** ** The engine *)

Section engine.
Import Model.
Local Open Scope list_scope.

Implicit Types (m : model) (a : action) (schedule : list action).

Lemma exec_app m s1 s2 : exec m (s1 ++ s2) = exec (exec m s1) s2.
Proof. apply fold_left_app. Qed.

Lemma exec_snoc m s a : exec m (s ++ [a]) = step (exec m s) a.
Proof. by rewrite exec_app. Qed.

(** Any property that holds initially and is kept by every step holds
    all along every run. *)
Lemma exec_invariant (P : model -> Prop) m schedule :
  P m -> (forall m a, P m -> P (step m a)) -> P (exec m schedule).
Proof.
  intros H0 Hstep. revert m H0.
  induction schedule as [|a rest IH]; intros m H0; simpl; auto.
Qed.

(** *** Counting live threads against the set that tracks them *)

Lemma filter_length_tracked {A} (P : A -> Prop) `{forall x, Decision (P x)}
    (l : list A) (S : gset nat) :
  (forall i x, l !! i = Some x -> P x -> i ∈ S) ->
  (length (filter P l) <= size S)%nat.
Proof.
  revert S. induction l as [|x l IH] using rev_ind; intros S HS.
  - simpl. lia.
  - rewrite filter_app, length_app. simpl.
    assert (Hl : forall S', (forall i y, l !! i = Some y -> P y -> i ∈ S') ->
                            (length (filter P l) <= size S')%nat) by auto.
    destruct (decide (P x)) as [HP|HP].
    + rewrite filter_cons_True by done. rewrite filter_nil. simpl.
      assert (Hin : length l ∈ S).
      { apply (HS _ x); [|done]. by rewrite lookup_app_r, Nat.sub_diag. }
      assert (length (filter P l) <= size (S ∖ {[length l]}))%nat.
      { apply Hl. intros i y Hi Hy. apply elem_of_difference. split.
        - apply (HS i y); [|done]. by rewrite lookup_app_l by (by eapply lookup_lt_Some).
        - apply lookup_lt_Some in Hi. set_solver by lia. }
      assert (size (S ∖ {[length l]}) = size S - 1)%nat.
      { rewrite size_difference by set_solver. by rewrite size_singleton. }
      assert (size S <> 0)%nat.
      { apply size_non_empty_iff. set_solver. }
      lia.
    + rewrite filter_cons_False by done. rewrite filter_nil. simpl.
      rewrite Nat.add_0_r. apply Hl. intros i y Hi Hy.
      apply (HS i y); [|done]. by rewrite lookup_app_l by (by eapply lookup_lt_Some).
Qed.

(** *** Every live thread is tracked, and the set stays within the cap *)

Lemma threads_ok_init domain has_view ws limit now :
  threads_ok (init domain has_view ws limit now).
Proof.
  split.
  - unfold size_ok, cap. msimpl. rewrite size_empty. lia.
  - intros t st Hl. msimpl. by rewrite lookup_nil in Hl.
Qed.

Lemma live_after_insert (l : list check_domain_pc) t new i st :
  <[t := new]> l !! i = Some st -> st <> TDone ->
  l !! t <> Some TDone ->
  exists st', l !! i = Some st' /\ (i = t \/ st' <> TDone).
Proof.
  intros Hi Hlive Ht. destruct (decide (t = i)) as [-> | Hne].
  - assert (i < length l)%nat as Hlt.
    { apply lookup_lt_Some in Hi. by rewrite length_insert in Hi. }
    destruct (lookup_lt_is_Some_2 l i Hlt) as [st' Hst']. eauto.
  - rewrite list_lookup_insert_ne in Hi by done. eauto.
Qed.

Lemma threads_ok_check_domain_step m t answer :
  threads_ok m -> threads_ok (check_domain_step t answer m).
Proof.
  intros [Hsize Htr]. unfold check_domain_step.
  destruct (threads m !! t) as [[d|d|d|]|] eqn:Ht; try done.
  all: split; [exact Hsize|].
  all: intros i st Hi Hlive; msimpl.
  all: destruct (live_after_insert _ _ _ _ _ Hi Hlive) as (st' & Hst' & Hor);
    [congruence|].
  all: apply (Htr i st' Hst'); destruct Hor as [-> | ?]; congruence.
Qed.

Lemma threads_ok_dns_checker_step m answer :
  threads_ok m -> threads_ok (dns_checker_step answer m).
Proof.
  intros H. unfold dns_checker_step.
  by destruct (dns_checker_thread m); try destruct (complete_bruteforcing m).
Qed.

Lemma threads_ok_bruteforce_step m pick :
  threads_ok m -> threads_ok (bruteforce_step pick m).
Proof.
  intros [Hsize Htr]. unfold bruteforce_step.
  unfold threads_ok, size_ok, tracked, cap in *.
  destruct (bruteforce_thread m) as [|w|w|sub t|sub|sub t|sub| |ts| | | |e] eqn:Hpc.
  - (* PFor *)
    destruct (words m) as [e|[|w rest]]; msimpl; (split; [lia|]); try done.
    intros t st Ht Hlive. split; [apply elem_of_elements|]; eauto.
  - (* PWait *) destruct (dns_working m); msimpl; rewrite ?Hpc; done.
  - (* PStart *)
    msimpl. split; [lia|]. intros t st Ht Hlive.
    apply lookup_app_Some in Ht as [Ht|[Hge Ht]].
    + left. eauto.
    + right. apply list_lookup_singleton_Some in Ht as [Ht _]. lia.
  - (* PAdd *)
    msimpl. split.
    + pose proof (size_union_alt (C:=gset nat) {[t]} (subdomain_threads m)) as Hu.
      rewrite size_singleton in Hu.
      assert (size (subdomain_threads m ∖ {[t]}) <= size (subdomain_threads m))%nat.
      { by apply subseteq_size, subseteq_difference_l. }
      lia.
    + intros i st Hi Hlive. destruct (Htr i st Hi Hlive); set_solver.
  - (* PLimit *)
    case_bool_decide as Hover; [|msimpl; split; [lia|done]].
    case_bool_decide as Hempty.
    { msimpl. split; [|done]. rewrite Hempty, size_empty. lia. }
    case_bool_decide as Hpick; [|rewrite Hpc; done].
    msimpl. split.
    + rewrite size_difference by set_solver. rewrite size_singleton. lia.
    + intros i st Hi Hlive. destruct (decide (i = pick)); [by right|].
      left. specialize (Htr i st Hi Hlive). set_solver.
  - (* PJoin *)
    unfold terminated. case_bool_decide as Hdone; [|rewrite Hpc; done].
    msimpl. split; [lia|]. intros i st Hi Hlive.
    destruct (Htr i st Hi Hlive) as [? | ->]; [done|]. congruence.
  - (* PLatest *) msimpl. done.
  - (* PCount *) msimpl. done.
  - (* PDrain *)
    destruct ts as [|t rest]; [msimpl; split; [lia|]|].
    + intros i st Hi Hlive. by apply (elem_of_nil i), (Htr i st).
    + unfold terminated. case_bool_decide as Hdone; [|rewrite Hpc; done].
      msimpl. split; [lia|]. intros i st Hi Hlive.
      destruct (Htr i st Hi Hlive) as [Hin ?].
      apply elem_of_cons in Hin as [-> | ?]; [congruence|done].
  - (* PSet *) msimpl. done.
  - (* PView *) destruct (view m); msimpl; done.
  - (* PDone *) rewrite Hpc. done.
  - (* PCrashed *) rewrite Hpc. done.
Qed.

Lemma threads_ok_step m a : threads_ok m -> threads_ok (step m a).
Proof.
  destruct a; simpl;
    auto using threads_ok_bruteforce_step, threads_ok_check_domain_step,
               threads_ok_dns_checker_step.
Qed.

Lemma thread_limit_step m a : thread_limit (step m a) = thread_limit m.
Proof.
  destruct a as [pick|t answer|answer]; simpl.
  - unfold bruteforce_step, terminated.
    destruct (bruteforce_thread m) as [|w|w|sub t|sub|sub t|sub| |[|t rest]| | | |e];
      repeat case_bool_decide;
      try destruct (words m) as [e'|[|w' rest']];
      try destruct (dns_working m); try destruct (view m); reflexivity.
  - unfold check_domain_step.
    by destruct (threads m !! t) as [[d|d|d|]|].
  - unfold dns_checker_step. by destruct (dns_checker_thread m).
Qed.

Lemma thread_limit_exec m schedule :
  thread_limit (exec m schedule) = thread_limit m.
Proof.
  revert m. induction schedule as [|a rest IH]; intros m; simpl; [done|].
  by rewrite IH, thread_limit_step.
Qed.

Lemma threads_ok_exec domain has_view ws limit now schedule :
  threads_ok (exec (init domain has_view ws limit now) schedule).
Proof.
  apply exec_invariant; [apply threads_ok_init|apply threads_ok_step].
Qed.

Lemma size_with_one (S : gset nat) (t : nat) :
  (size (S ∪ {[t]}) <= size S + 1)%nat.
Proof.
  rewrite size_union_alt.
  assert (size (({[t]} : gset nat) ∖ S) <= size ({[t]} : gset nat))%nat as Hle.
  { by apply subseteq_size, subseteq_difference_l. }
  rewrite size_singleton in Hle. lia.
Qed.

Lemma in_flight_le_cap m : threads_ok m -> Z.of_nat (in_flight m) <= cap m.
Proof.
  intros [Hsize Htr]. unfold in_flight, size_ok, tracked in *.
  assert (Hset : (forall t st, threads m !! t = Some st -> st <> TDone ->
                              t ∈ subdomain_threads m) ->
                 (length (filter (fun st => st <> TDone) (threads m))
                  <= size (subdomain_threads m))%nat).
  { apply filter_length_tracked. }
  assert (Hone : forall t',
             (forall t st, threads m !! t = Some st -> st <> TDone ->
                           t ∈ subdomain_threads m \/ t = t') ->
             (length (filter (fun st => st <> TDone) (threads m))
              <= size (subdomain_threads m) + 1)%nat).
  { intros t' H. etrans; [|apply (size_with_one _ t')].
    apply filter_length_tracked. intros i st Hi Hlive.
    destruct (H i st Hi Hlive); set_solver. }
  assert (Hnone : (forall t st, threads m !! t = Some st -> st <> TDone -> False) ->
                  length (filter (fun st => st <> TDone) (threads m)) = 0%nat).
  { intros H.
    pose proof (filter_length_tracked (fun st => st <> TDone) (threads m) ∅) as Hle.
    rewrite size_empty in Hle. 
    assert (length (filter (fun st => st <> TDone) (threads m)) <= 0)%nat; [|lia].
    apply Hle. intros i st Hi Hlive. destruct (H i st Hi Hlive). }
  destruct (bruteforce_thread m) as [|w|w|sub t|sub|sub t|sub| |ts| | | |e];
    try (specialize (Hset Htr); lia);
    try (specialize (Hone _ Htr); lia);
    try (rewrite (Hnone Htr); unfold cap; lia).
  assert (length (filter (fun st => st <> TDone) (threads m))
          <= size (subdomain_threads m))%nat; [|lia].
  apply Hset. intros t st Ht Hlive. by destruct (Htr t st Ht Hlive).
Qed.

Lemma size_le_cap m :
  threads_ok m -> Z.of_nat (size (subdomain_threads m)) <= cap m.
Proof.
  intros [Hsize _]. unfold size_ok in Hsize.
  destruct (bruteforce_thread m); lia.
Qed.

(** C2, as the code has it.  Along every run, for every word source and
    every [thread_limit], neither the number of attempts in flight nor
    the size of [subdomain_threads] exceeds [thread_limit + 1] (1 when
    [thread_limit] is negative): a thread is started first, and only
    then does [thread_limiter] pop and join. *)
Theorem in_flight_within_limit_plus_one (domain : string) (has_view : bool)
    (ws : result (list string)) (limit now : Z) (schedule : list action) :
  let m := exec (init domain has_view ws limit now) schedule in
  Z.of_nat (in_flight m) <= Z.max 0 limit + 1
  /\ Z.of_nat (size (subdomain_threads m)) <= Z.max 0 limit + 1.
Proof.
  intros m.
  pose proof (threads_ok_exec domain has_view ws limit now schedule) as Hok.
  fold m in Hok.
  pose proof (in_flight_le_cap m Hok). pose proof (size_le_cap m Hok).
  unfold cap in *. unfold m in *. rewrite thread_limit_exec in *. done.
Qed.

(** C2, as stated, fails: with [thread_limit] 1 and two words, two
    attempts are in flight, both in [subdomain_threads], before
    [thread_limiter] first looks at the set. *)
Lemma in_flight_exceeds_limit :
  let m := exec (init "example.com" true (inr ["a"; "b"]) 1 0)
             (dns_up ++ bruteforce_steps 11 0) in
  thread_limit m = 1
  /\ in_flight m = 2%nat
  /\ size (subdomain_threads m) = 2%nat
  /\ bruteforce_thread m = PLimit "b.example.com".
Proof. by vm_compute. Qed.

(** *** The counter against the threads started *)

Lemma count_ok_init domain has_view ws limit now :
  count_ok (init domain has_view ws limit now).
Proof. reflexivity. Qed.

Lemma checked_subdomains_count_check_domain_step m t answer :
  checked_subdomains_count (check_domain_step t answer m)
  = checked_subdomains_count m.
Proof.
  unfold check_domain_step. by destruct (threads m !! t) as [[d|d|d|]|].
Qed.

Lemma dispatched_check_domain_step m t answer :
  dispatched (check_domain_step t answer m) = dispatched m.
Proof.
  unfold check_domain_step, dispatched.
  destruct (threads m !! t) as [[d|d|d|]|]; msimpl; by rewrite ?length_insert.
Qed.

Lemma bruteforce_thread_check_domain_step m t answer :
  bruteforce_thread (check_domain_step t answer m) = bruteforce_thread m.
Proof.
  unfold check_domain_step. by destruct (threads m !! t) as [[d|d|d|]|].
Qed.

Lemma count_ok_step m a : count_ok m -> count_ok (step m a).
Proof.
  unfold count_ok. destruct a as [pick|t answer|answer]; simpl.
  - unfold bruteforce_step, terminated, dispatched.
    destruct (bruteforce_thread m) as [|w|w|sub t|sub|sub t|sub| |[|t rest]| | | |e] eqn:Hpc;
      repeat case_bool_decide;
      try destruct (words m) as [e'|[|w' rest']];
      try destruct (dns_working m); try destruct (view m);
      msimpl; rewrite ?Hpc; rewrite ?length_app; simpl; lia.
  - by rewrite bruteforce_thread_check_domain_step,
      checked_subdomains_count_check_domain_step, dispatched_check_domain_step.
  - unfold dns_checker_step. by destruct (dns_checker_thread m).
Qed.

(** C4, as the code has it.  Along every run the counter equals the
    number of candidates handed to a thread, less one from the moment a
    candidate's thread is started until [thread_limiter] has returned
    and the increment is made; steps of the [check_domain] threads never
    change it. *)
Theorem checked_count_follows_dispatch (domain : string) (has_view : bool)
    (ws : result (list string)) (limit now : Z) (schedule : list action) :
  let m := exec (init domain has_view ws limit now) schedule in
  count_ok m
  /\ forall t answer,
      checked_subdomains_count (check_domain_step t answer m)
      = checked_subdomains_count m.
Proof.
  split.
  - apply exec_invariant; [apply count_ok_init|apply count_ok_step].
  - intros. apply checked_subdomains_count_check_domain_step.
Qed.

(** C4, as stated, fails: the first candidate has been dispatched, its
    attempt has finished and has been reported, and the counter is
    still 0 and [latest] still unset. *)
Lemma dispatched_before_counted :
  let m := exec (init "example.com" true (inr ["www"]) 100 0)
             (dns_up ++ bruteforce_steps 3 0 ++ check_domain_run 0 true) in
  dispatched m = 1%nat
  /\ calls m = [found_subdomain "www.example.com"]
  /\ in_flight m = 0%nat
  /\ checked_subdomains_count m = 0
  /\ latest m = None.
Proof. by vm_compute. Qed.

(** *** Finding the same name again *)

(** A [check_domain] thread run without interruption does what
    [check_domain] does. *)
Lemma check_domain_run_spec m t domain answer :
  threads m !! t = Some (TResolve domain) ->
  exec m (check_domain_run t answer)
  = set_threads (<[t := TDone]> (threads m)) (check_domain domain answer m).
Proof.
  intros Ht. pose proof (lookup_lt_Some _ _ _ Ht) as Hlt.
  unfold check_domain_run, check_domain. simpl.
  unfold check_domain_step at 3. rewrite Ht. destruct answer; msimpl.
  - unfold check_domain_step at 2. msimpl.
    rewrite list_lookup_insert_eq by done.
    unfold check_domain_step. msimpl. rewrite list_insert_insert_eq.
    destruct (view m); msimpl.
    + rewrite list_lookup_insert_eq by done. msimpl.
      by rewrite list_insert_insert_eq.
    + by rewrite list_lookup_insert_eq by done.
  - assert (Hd : forall m', threads m' !! t = Some TDone ->
                           check_domain_step t false m' = m').
    { intros m' H. unfold check_domain_step. by rewrite H. }
    assert (Hset : threads (set_threads (<[t := TDone]> (threads m)) m) !! t
                   = Some TDone).
    { msimpl. by rewrite list_lookup_insert_eq. }
    by rewrite !(Hd _ Hset).
Qed.

(** C3, as the code has it.  Finding a name that is already in
    [found_subdomains] leaves the set as it is, and calls
    [view.found_subdomain] once more. *)
Theorem check_domain_found_again (m : model) (domain : string) :
  domain ∈ found_subdomains m ->
  view m = true ->
  found_subdomains (check_domain domain true m) = found_subdomains m
  /\ calls (check_domain domain true m)
     = (calls m ++ [found_subdomain domain])%list.
Proof.
  intros Hin Hview. unfold check_domain. msimpl. rewrite Hview. msimpl.
  split; [|done]. by apply subseteq_union_1_L, singleton_subseteq_l.
Qed.

Lemma check_domain_found_again_witness :
  let m := exec (init "example.com" true (inr ["www"; "www"]) 100 0)
             (dns_up ++ bruteforce_steps 10 0 ++ check_domain_run 0 true) in
  found_subdomains (check_domain "www.example.com" true m) = found_subdomains m
  /\ calls (check_domain "www.example.com" true m)
     = (calls m ++ [found_subdomain "www.example.com"])%list.
Proof.
  apply (check_domain_found_again
           (exec (init "example.com" true (inr ["www"; "www"]) 100 0)
              (dns_up ++ bruteforce_steps 10 0 ++ check_domain_run 0 true))
           "www.example.com"); by vm_compute.
Defined.

(** C3, as stated, fails: the word www comes twice, both attempts
    resolve, the set holds one name and the view has been told twice. *)
Lemma found_subdomain_called_twice :
  let m := exec (init "example.com" true (inr ["www"; "www"]) 100 0)
             (dns_up ++ bruteforce_steps 10 0
              ++ check_domain_run 0 true ++ check_domain_run 1 true) in
  size (found_subdomains m) = 1%nat
  /\ calls m = [found_subdomain "www.example.com";
                found_subdomain "www.example.com"].
Proof. by vm_compute. Qed.

(** *** Completion *)

Lemma completion_ok_init domain has_view ws limit now :
  completion_ok (init domain has_view ws limit now).
Proof.
  split; msimpl; [|by destruct has_view].
  split; [done|]. by intros [|].
Qed.

(** Once [bruteforce] is past its final joins no thread can move. *)
Lemma check_domain_step_all_done m t answer :
  threads_ok m ->
  bruteforce_thread m = PSet \/ bruteforce_thread m = PView
  \/ bruteforce_thread m = PDone ->
  check_domain_step t answer m = m.
Proof.
  intros [_ Htr] Hpc. unfold check_domain_step.
  destruct (threads m !! t) as [st|] eqn:Ht; [|done].
  destruct (decide (st = TDone)) as [->|Hlive]; [done|].
  specialize (Htr t st Ht Hlive). unfold tracked in Htr.
  by destruct Hpc as [Hpc|[Hpc|Hpc]]; rewrite Hpc in Htr.
Qed.

Lemma completion_ok_check_domain_step m t answer :
  threads_ok m -> completion_ok m -> completion_ok (check_domain_step t answer m).
Proof.
  intros Hok [Hflag Hcalls].
  destruct (decide (bruteforce_thread m = PSet \/ bruteforce_thread m = PView
                    \/ bruteforce_thread m = PDone)) as [Hpc|Hpc].
  { by rewrite check_domain_step_all_done. }
  unfold completion_ok. rewrite bruteforce_thread_check_domain_step.
  assert (Hsame : complete_bruteforcing (check_domain_step t answer m)
                  = complete_bruteforcing m
                  /\ view (check_domain_step t answer m) = view m
                  /\ Forall (fun c => is_completed c = false)
                       (calls (check_domain_step t answer m))).
  { assert (Forall (fun c => is_completed c = false) (calls m)) as Hall.
    { destruct (bruteforce_thread m); try done. tauto. }
    unfold check_domain_step.
    destruct (threads m !! t) as [[d|d|d|]|]; msimpl; try done.
    repeat split. apply Forall_app. split; [done|]. by repeat constructor. }
  destruct Hsame as (-> & -> & Hall). split; [done|].
  destruct (bruteforce_thread m); try done; by destruct (view m); try tauto.
Qed.

Lemma completion_ok_dns_checker_step m answer :
  completion_ok m -> completion_ok (dns_checker_step answer m).
Proof.
  unfold dns_checker_step.
  by destruct (dns_checker_thread m); try destruct (complete_bruteforcing m).
Qed.

Lemma completion_ok_bruteforce_step m pick :
  completion_ok m -> completion_ok (bruteforce_step pick m).
Proof.
  intros [Hflag Hcalls]. unfold completion_ok, bruteforce_step, terminated in *.
  assert (Hnot : bruteforce_thread m <> PView -> bruteforce_thread m <> PDone ->
                 complete_bruteforcing m <> true) by tauto.
  destruct (bruteforce_thread m) as [|w|w|sub t|sub|sub t|sub| |[|t rest]| | | |e] eqn:Hpc;
    repeat case_bool_decide;
    try destruct (words m) as [e'|[|w' rest']];
    try destruct (dns_working m);
    try (destruct (view m) eqn:Hview);
    msimpl; rewrite ?Hpc, ?Hview;
    try (split; [split; [intros ?; exfalso; by apply Hnot|by intros [|]]|done]);
    try (split; [tauto|done]);
    try done.
  all: split; [tauto|]; by exists (calls m).
Qed.

Lemma completion_ok_exec domain has_view ws limit now schedule :
  completion_ok (exec (init domain has_view ws limit now) schedule).
Proof.
  enough (threads_ok (exec (init domain has_view ws limit now) schedule)
          /\ completion_ok (exec (init domain has_view ws limit now) schedule))
    by tauto.
  apply (exec_invariant (fun m => threads_ok m /\ completion_ok m)).
  - split; [apply threads_ok_init|apply completion_ok_init].
  - intros m a [Hok Hc]. split; [by apply threads_ok_step|].
    destruct a; simpl;
      auto using completion_ok_bruteforce_step, completion_ok_check_domain_step,
                 completion_ok_dns_checker_step.
Qed.

Lemma view_step m a : view (step m a) = view m.
Proof.
  destruct a as [pick|t answer|answer]; simpl.
  - unfold bruteforce_step, terminated.
    destruct (bruteforce_thread m) as [|w|w|sub t|sub|sub t|sub| |[|t rest]| | | |e];
      repeat case_bool_decide;
      try destruct (words m) as [e'|[|w' rest']];
      try destruct (dns_working m); msimpl; try done.
    all: by destruct (view m) eqn:Hv.
  - unfold check_domain_step.
    by destruct (threads m !! t) as [[d|d|d|]|].
  - unfold dns_checker_step. by destruct (dns_checker_thread m).
Qed.

Lemma view_exec m schedule : view (exec m schedule) = view m.
Proof.
  revert m. induction schedule as [|a rest IH]; intros m; simpl; [done|].
  by rewrite IH, view_step.
Qed.

Lemma in_flight_all_done m :
  (forall t st, threads m !! t = Some st -> st = TDone) -> in_flight m = 0%nat.
Proof.
  intros Hdone. unfold in_flight.
  pose proof (filter_length_tracked (fun st => st <> TDone) (threads m) ∅) as Hle.
  rewrite size_empty in Hle.
  assert (length (filter (fun st => st <> TDone) (threads m)) <= 0)%nat; [|lia].
  apply Hle. intros i st Hi Hlive. by destruct (Hlive (Hdone i st Hi)).
Qed.

Lemma all_done_after_joins m :
  threads_ok m ->
  bruteforce_thread m = PSet \/ bruteforce_thread m = PView
  \/ bruteforce_thread m = PDone ->
  forall t st, threads m !! t = Some st -> st = TDone.
Proof.
  intros [_ Htr] Hpc t st Ht.
  destruct (decide (st = TDone)) as [|Hlive]; [done|].
  specialize (Htr t st Ht Hlive). unfold tracked in Htr.
  by destruct Hpc as [Hpc|[Hpc|Hpc]]; rewrite Hpc in Htr.
Qed.

Lemma not_completed_filter (cs : list view_call) :
  Forall (fun c => is_completed c = false) cs ->
  filter (fun c => is_completed c = true) cs = [].
Proof.
  induction 1 as [|c cs Hc _ IH]; [done|].
  rewrite filter_cons_False by congruence. done.
Qed.

(** Nothing reaches the view, and the set stays as it is, once
    [bruteforce] has returned. *)
Lemma step_after_return m a :
  threads_ok m -> bruteforce_thread m = PDone ->
  bruteforce_thread (step m a) = PDone
  /\ calls (step m a) = calls m
  /\ found_subdomains (step m a) = found_subdomains m.
Proof.
  intros Hok Hpc. destruct a as [pick|t answer|answer]; simpl.
  - unfold bruteforce_step. by rewrite Hpc.
  - rewrite check_domain_step_all_done by auto. done.
  - unfold dns_checker_step.
    by destruct (dns_checker_thread m); try destruct (complete_bruteforcing m).
Qed.

Lemma exec_after_return m schedule :
  threads_ok m -> bruteforce_thread m = PDone ->
  calls (exec m schedule) = calls m
  /\ found_subdomains (exec m schedule) = found_subdomains m.
Proof.
  revert m. induction schedule as [|a rest IH]; intros m Hok Hpc; [done|].
  simpl. destruct (step_after_return m a Hok Hpc) as (Hpc' & <- & <-).
  apply IH; [by apply threads_ok_step|done].
Qed.

(** *** Every word source can be run to the end *)

Lemma drain_completes ts m :
  bruteforce_thread m = PDrain ts ->
  (forall t, t ∈ ts -> threads m !! t = Some TDone) ->
  exists schedule, bruteforce_thread (exec m schedule) = PDone.
Proof.
  revert m. induction ts as [|t rest IH]; intros m Hpc Hdone.
  - exists (bruteforce_steps 3 0).
    destruct m; simpl in Hpc; subst. by cbn.
  - destruct (IH (bruteforce_step 0 m)) as [schedule Hs].
    + unfold bruteforce_step, terminated. rewrite Hpc.
      rewrite bool_decide_eq_true_2 by (apply Hdone; left). done.
    + unfold bruteforce_step, terminated. rewrite Hpc.
      rewrite bool_decide_eq_true_2 by (apply Hdone; left). msimpl.
      intros t' Ht'. apply Hdone. by right.
    + by exists (run_bruteforce 0 :: schedule).
Qed.

Lemma exec_cons m a schedule : exec m (a :: schedule) = exec (step m a) schedule.
Proof. reflexivity. Qed.

(** Take the first step of a run on a state whose fields are known. *)
Ltac run_step :=
  rewrite exec_cons;
  cbv beta iota zeta delta
    [step bruteforce_step check_domain_step terminated
     base_domain view words thread_limit found_subdomains
     checked_subdomains_count latest subdomain_threads dns_working
     dns_not_working complete_bruteforcing start_time threads
     bruteforce_thread dns_checker_thread calls
     set_words set_found_subdomains set_checked_subdomains_count set_latest
     set_subdomain_threads set_dns_working set_dns_not_working
     set_complete_bruteforcing set_threads set_bruteforce_thread
     set_dns_checker_thread set_calls].

Lemma check_domain_step_not_found m t domain :
  threads m !! t = Some (TResolve domain) ->
  check_domain_step t false m = set_threads (<[t := TDone]> (threads m)) m.
Proof. intros Ht. unfold check_domain_step. by rewrite Ht. Qed.

(** One turn of the loop of [bruteforce], the new thread running to its
    end before [thread_limiter] looks at the set. *)
Lemma one_word_dispatched m w rest :
  bruteforce_thread m = PFor ->
  words m = inr (w :: rest) ->
  dns_working m = true ->
  (forall t, t ∈ subdomain_threads m -> threads m !! t = Some TDone) ->
  Z.of_nat (size (subdomain_threads m)) <= thread_limit m ->
  exists schedule m',
    exec m schedule = m'
    /\ bruteforce_thread m' = PFor
    /\ words m' = inr rest
    /\ dns_working m' = true
    /\ (forall t, t ∈ subdomain_threads m' -> threads m' !! t = Some TDone)
    /\ Z.of_nat (size (subdomain_threads m')) <= thread_limit m'.
Proof.
  intros Hpc Hw Hdns Hdone Hsize.
  destruct m as [bd v ws lim fs cnt lat S dw dnw cb stt ths pc cpc cl].
  simpl in *. subst.
  set (t := length ths).
  set (sub := strip_sp_nl (w ++ "." ++ bd)%string).
  assert (Hnew : (ths ++ [TResolve sub]) !! t = Some (TResolve sub)).
  { by apply list_lookup_middle. }
  assert (Hfin : forall i, i ∈ ({[t]} ∪ S : gset nat) ->
                   <[t := TDone]> (ths ++ [TResolve sub]) !! i = Some TDone).
  { intros i [->%elem_of_singleton|Hi]%elem_of_union.
    - apply list_lookup_insert_eq. rewrite length_app. simpl. lia.
    - pose proof (lookup_lt_Some _ _ _ (Hdone i Hi)).
      rewrite list_lookup_insert_ne by (unfold t; lia).
      rewrite lookup_app_l by done. auto. }
  assert (Ht : t = length ths) by done.
  assert (Hsub : sub = strip_sp_nl (w ++ "." ++ bd)%string) by done.
  clearbody t sub.
  destruct (bool_decide (lim < Z.of_nat (size ({[t]} ∪ S)))) eqn:Hover.
  - assert (Hle : (size (({[t]} ∪ S) ∖ {[t]}) <= size S)%nat).
    { apply subseteq_size.
      intros i [[Hi|Hi]%elem_of_union Hne]%elem_of_difference;
        [contradiction|done]. }
    exists (bruteforce_steps 3 t ++ [run_check_domain t false]
            ++ bruteforce_steps 6 t).
    eexists. split.
    { cbv [bruteforce_steps replicate app].
      do 3 run_step. rewrite <- ?Ht, <- ?Hsub.
      run_step. rewrite Hnew.
      run_step. run_step. rewrite Hover.
      rewrite (bool_decide_eq_false_2 ({[t]} ∪ S = ∅)).
      2:{ intros Hempty. apply (not_elem_of_empty (C:=gset nat) t).
          rewrite <- Hempty. apply elem_of_union_l. by apply elem_of_singleton. }
      rewrite (bool_decide_eq_true_2 (t ∈ {[t]} ∪ S))
        by (apply elem_of_union_l; by apply elem_of_singleton).
      run_step.
      rewrite (bool_decide_eq_true_2 (_ !! t = Some TDone))
        by (apply Hfin, elem_of_union_l; by apply elem_of_singleton).
      run_step. rewrite bool_decide_eq_false_2 by lia.
      do 2 run_step. cbv [exec fold_left]. reflexivity. }
    msimpl. repeat split; try done; [|lia].
    intros i [Hi _]%elem_of_difference. by apply Hfin.
  - exists (bruteforce_steps 3 t ++ [run_check_domain t false]
            ++ bruteforce_steps 4 t).
    eexists. split.
    { cbv [bruteforce_steps replicate app].
      do 3 run_step. rewrite <- ?Ht, <- ?Hsub.
      run_step. rewrite Hnew.
      run_step. run_step. rewrite Hover.
      do 2 run_step. cbv [exec fold_left]. reflexivity. }
    msimpl. apply bool_decide_eq_false in Hover.
    repeat split; try done. lia.
Qed.

Lemma run_to_completion l m :
  bruteforce_thread m = PFor ->
  words m = inr l ->
  dns_working m = true ->
  (forall t, t ∈ subdomain_threads m -> threads m !! t = Some TDone) ->
  Z.of_nat (size (subdomain_threads m)) <= thread_limit m ->
  exists schedule, bruteforce_thread (exec m schedule) = PDone.
Proof.
  revert m. induction l as [|w rest IH]; intros m Hpc Hw Hdns Hdone Hsize.
  - destruct (drain_completes (elements (subdomain_threads m))
                (bruteforce_step 0 m)) as [schedule Hs].
    + unfold bruteforce_step. by rewrite Hpc, Hw.
    + unfold bruteforce_step. rewrite Hpc, Hw. msimpl.
      intros t Ht. by apply Hdone, elem_of_elements.
    + by exists (run_bruteforce 0 :: schedule).
  - destruct (one_word_dispatched m w rest Hpc Hw Hdns Hdone Hsize)
      as (s1 & m' & <- & H1 & H2 & H3 & H4 & H5).
    destruct (IH _ H1 H2 H3 H4 H5) as [s2 Hs2].
    exists (s1 ++ s2). by rewrite exec_app.
Qed.

Lemma completed_last (pre pre' post : list view_call) (S S' : gset string) :
  pre ++ completed S :: post = pre' ++ [completed S'] ->
  Forall (fun c => is_completed c = false) pre' ->
  post = [] /\ S = S'.
Proof.
  intros Heq Hall. destruct post as [|c post _] using rev_ind.
  - apply app_inj_tail in Heq as [_ [= ->]]. done.
  - exfalso. rewrite app_comm_cons, app_assoc in Heq.
    apply app_inj_tail in Heq as [<- _].
    apply Forall_app in Hall as [_ Hall].
    by apply Forall_cons in Hall as [? _].
Qed.

(** C1.  With a view, along every run: [view.completed] has been called
    once if [bruteforce] has returned and not at all before; when it has
    been called it is the last call the view received, the set it was
    given is [found_subdomains] as it now is, [complete_bruteforcing] is
    set and no attempt is in flight; from then on neither the calls nor
    the set change; and for every list of words and non-negative
    [thread_limit] some run does reach that point. *)
Theorem completed_once_after_all (domain : string)
    (ws : result (list string)) (limit now : Z) (schedule : list action) :
  let m := exec (init domain true ws limit now) schedule in
  length (filter (fun c => is_completed c = true) (calls m))
    = (if bool_decide (bruteforce_thread m = PDone) then 1%nat else 0%nat)
  /\ (forall pre S post,
        calls m = pre ++ completed S :: post ->
        post = [] /\ S = found_subdomains m
        /\ complete_bruteforcing m = true
        /\ in_flight m = 0%nat
        /\ bruteforce_thread m = PDone)
  /\ (bruteforce_thread m = PDone ->
      forall more, calls (exec m more) = calls m
                   /\ found_subdomains (exec m more) = found_subdomains m)
  /\ (forall l, ws = inr l -> 0 <= limit ->
      exists schedule',
        bruteforce_thread (exec (init domain true ws limit now) schedule')
        = PDone).
Proof.
  intros m.
  pose proof (threads_ok_exec domain true ws limit now schedule) as Hok.
  pose proof (completion_ok_exec domain true ws limit now schedule)
    as [Hflag Hcalls].
  pose proof (view_exec (init domain true ws limit now) schedule) as Hview.
  fold m in Hok, Hflag, Hcalls, Hview. msimpl.
  assert (Hbefore : bruteforce_thread m <> PDone ->
                    Forall (fun c => is_completed c = false) (calls m)).
  { intros Hne. destruct (bruteforce_thread m); done. }
  assert (Hafter : bruteforce_thread m = PDone ->
                   exists pre, calls m = pre ++ [completed (found_subdomains m)]
                     /\ Forall (fun c => is_completed c = false) pre).
  { intros Hpc. by rewrite Hpc, Hview in Hcalls. }
  assert (Hcall : forall pre S post,
             calls m = pre ++ completed S :: post ->
             bruteforce_thread m = PDone /\ post = []
             /\ S = found_subdomains m).
  { intros pre S post Hc.
    destruct (decide (bruteforce_thread m = PDone)) as [Hpc|Hpc].
    - destruct (Hafter Hpc) as (pre' & Heq & Hpre). rewrite Heq in Hc.
      symmetry in Hc. by destruct (completed_last _ _ _ _ _ Hc Hpre).
    - specialize (Hbefore Hpc). rewrite Hc in Hbefore.
      apply Forall_app in Hbefore as [_ Hbefore].
      by apply Forall_cons in Hbefore as [? _]. }
  split; [|split; [|split]].
  - case_bool_decide as Hpc.
    + destruct (Hafter Hpc) as (pre & -> & Hpre).
      rewrite filter_app, (not_completed_filter pre Hpre). done.
    + by rewrite (not_completed_filter _ (Hbefore Hpc)).
  - intros pre S post Hc. destruct (Hcall pre S post Hc) as (Hpc & -> & ->).
    repeat split; try done.
    + apply Hflag. by right.
    + apply in_flight_all_done, all_done_after_joins; auto.
  - intros Hpc more. by apply exec_after_return.
  - intros l -> Hlimit.
    destruct (run_to_completion l (exec (init domain true (inr l) limit now) dns_up))
      as [s Hs].
    + reflexivity.
    + reflexivity.
    + reflexivity.
    + intros t Ht. change (t ∈ (∅ : gset nat)) in Ht.
      by apply not_elem_of_empty in Ht.
    + change (Z.of_nat (size (∅ : gset nat)) <= limit).
      rewrite size_empty. lia.
    + exists (dns_up ++ s). by rewrite exec_app.
Qed.

Lemma completed_once_after_all_witness :
  let m := exec test_bruteforce_init test_bruteforce_schedule in
  calls m = [found_subdomain "maps.google.com";
             found_subdomain "drive.google.com";
             completed {[ "maps.google.com"; "drive.google.com" ]}]
  /\ calls (exec m (dns_down ++ bruteforce_steps 2 0 ++ check_domain_run 1 true))
     = calls m
  /\ found_subdomains
       (exec m (dns_down ++ bruteforce_steps 2 0 ++ check_domain_run 1 true))
     = found_subdomains m.
Proof.
  split; [by vm_compute|].
  apply (proj1 (proj2 (proj2
           (completed_once_after_all "google.com"
              (inr ["cieufhcne"; "maps"; "oicunf"; "drive"]) 100 0
              test_bruteforce_schedule)))).
  by vm_compute.
Defined.

(** *** The health gate *)

Lemma may_dispatch_nonneg pc : 0 <= may_dispatch pc.
Proof. destruct pc; simpl; lia. Qed.

Lemma may_count_nonneg pc : 0 <= may_count pc.
Proof. destruct pc; simpl; lia. Qed.

(** A step taken while [dns_working] is clear uses up what is left to
    do past the gate, and never adds to it. *)
Lemma step_while_unhealthy m a :
  dns_working m = false ->
  (Z.of_nat (dispatched m) <= Z.of_nat (dispatched (step m a))
   /\ Z.of_nat (dispatched (step m a)) + may_dispatch (bruteforce_thread (step m a))
      <= Z.of_nat (dispatched m) + may_dispatch (bruteforce_thread m))
  /\ (checked_subdomains_count m <= checked_subdomains_count (step m a)
      /\ checked_subdomains_count (step m a)
           + may_count (bruteforce_thread (step m a))
         <= checked_subdomains_count m + may_count (bruteforce_thread m)).
Proof.
  intros Hdns. destruct a as [pick|t answer|answer]; simpl.
  - unfold bruteforce_step, terminated, dispatched. rewrite Hdns.
    destruct (bruteforce_thread m) as [|w|w|sub t|sub|sub t|sub| |[|t rest]| | | |e] eqn:Hpc;
      repeat case_bool_decide;
      try destruct (words m) as [e'|[|w' rest']];
      try destruct (view m);
      msimpl; rewrite ?Hpc; rewrite ?length_app; simpl; lia.
  - rewrite bruteforce_thread_check_domain_step,
      checked_subdomains_count_check_domain_step, dispatched_check_domain_step.
    lia.
  - unfold dns_checker_step, dispatched.
    destruct (dns_checker_thread m); try destruct (complete_bruteforcing m);
      msimpl; lia.
Qed.

(** The wait at the top of the loop does not return while
    [dns_working] is clear. *)
Lemma wait_blocks m w pick :
  bruteforce_thread m = PWait w -> dns_working m = false ->
  bruteforce_step pick m = m.
Proof. intros Hpc Hdns. unfold bruteforce_step. by rewrite Hpc, Hdns. Qed.

(** C5, as the code has it.  Over any stretch of a run during which
    [dns_working] stays clear, [bruteforce] does not get past
    [dns_working.wait()]: it starts no thread and counts no candidate,
    except for the one candidate whose wait had already returned when
    the stretch began, which is still started (if not yet) and still
    counted (if not yet). *)
Theorem unhealthy_stops_at_the_gate (m : model) (schedule : list action) :
  unhealthy_throughout m schedule = true ->
  let m' := exec m schedule in
  (Z.of_nat (dispatched m) <= Z.of_nat (dispatched m')
   /\ Z.of_nat (dispatched m') + may_dispatch (bruteforce_thread m')
      <= Z.of_nat (dispatched m) + may_dispatch (bruteforce_thread m))
  /\ (checked_subdomains_count m <= checked_subdomains_count m'
      /\ checked_subdomains_count m' + may_count (bruteforce_thread m')
         <= checked_subdomains_count m + may_count (bruteforce_thread m))
  /\ (forall w pick,
        bruteforce_thread m' = PWait w -> dns_working m' = false ->
        bruteforce_step pick m' = m').
Proof.
  revert m. induction schedule as [|a rest IH]; intros m Hun; simpl.
  - repeat split; try lia. apply wait_blocks.
  - simpl in Hun. apply andb_true_iff in Hun as [Hdns Hrest].
    apply negb_true_iff in Hdns.
    destruct (step_while_unhealthy m a Hdns) as [[Hd1 Hd2] [Hc1 Hc2]].
    destruct (IH _ Hrest) as ([Hd3 Hd4] & [Hc3 Hc4] & Hgate).
    unfold exec in *. repeat split; try lia. apply Hgate.
Qed.

(** At the gate, nothing moves. *)
Lemma unhealthy_stops_at_the_gate_witness :
  let m := exec (init "example.com" true (inr ["a"; "b"]) 100 0)
             (dns_up ++ bruteforce_steps 8 0 ++ dns_down) in
  let m' := exec m (bruteforce_steps 5 0 ++ check_domain_run 0 true) in
  bruteforce_thread m = PWait "b"
  /\ dispatched m' = dispatched m
  /\ checked_subdomains_count m' = checked_subdomains_count m.
Proof.
  split; [by vm_compute|].
  pose proof (unhealthy_stops_at_the_gate
                (exec (init "example.com" true (inr ["a"; "b"]) 100 0)
                   (dns_up ++ bruteforce_steps 8 0 ++ dns_down))
                (bruteforce_steps 5 0 ++ check_domain_run 0 true)
                ltac:(by vm_compute)) as [[Hd1 Hd2] [[Hc1 Hc2] _]].
  pose proof (may_dispatch_nonneg
                (bruteforce_thread
                   (exec (exec (init "example.com" true (inr ["a"; "b"]) 100 0)
                            (dns_up ++ bruteforce_steps 8 0 ++ dns_down))
                      (bruteforce_steps 5 0 ++ check_domain_run 0 true)))).
  pose proof (may_count_nonneg
                (bruteforce_thread
                   (exec (exec (init "example.com" true (inr ["a"; "b"]) 100 0)
                            (dns_up ++ bruteforce_steps 8 0 ++ dns_down))
                      (bruteforce_steps 5 0 ++ check_domain_run 0 true)))).
  change (may_dispatch _) with 0 in Hd2 at 2.
  change (may_count _) with 0 in Hc2 at 2.
  split; lia.
Defined.

(** C5, as stated, fails: the wait has returned for the first word, the
    base domain then stops resolving, and with [dns_working] clear all
    along the candidate is dispatched and counted. *)
Lemma dispatched_while_unhealthy :
  let m := exec (init "example.com" true (inr ["a"; "b"]) 100 0)
             (dns_up ++ bruteforce_steps 2 0 ++ dns_down) in
  let m' := exec m (bruteforce_steps 5 0) in
  dns_working m = false
  /\ unhealthy_throughout m (bruteforce_steps 5 0) = true
  /\ dns_working m' = false
  /\ (dispatched m, dispatched m') = (0%nat, 1%nat)
  /\ (checked_subdomains_count m, checked_subdomains_count m') = (0, 1).
Proof. by vm_compute. Qed.

End engine.

(** ** More on the candidate sources *)

Section more_generated_source.
Import Controller.
Local Open Scope list_scope.

Lemma generate_letters_plain alphabet indices acc :
  generate_letters (Some "") alphabet indices acc
  = inr (acc ++ replicate (length indices) (list_ascii_of_string alphabet)).
Proof.
  revert acc. induction indices as [|i rest IH]; intros acc.
  - simpl. by rewrite app_nil_r.
  - cbn [generate_letters length replicate].
    rewrite (letters_at_beyond "" alphabet i) by by destruct i.
    cbn [bind]. rewrite IH. by rewrite <- app_assoc.
Qed.

Lemma length_product_cons {A} (l : list A) (rest : list (list A)) :
  length (product (l :: rest)) = (length l * length (product rest))%nat.
Proof.
  simpl. induction l as [|x l IH]; simpl; [done|].
  by rewrite length_app, length_map, IH.
Qed.

Lemma length_product_replicate {A} (l : list A) (k : nat) :
  length (product (replicate k l)) = (length l ^ k)%nat.
Proof.
  induction k as [|k IH]; [done|].
  cbn [replicate]. rewrite length_product_cons, IH. simpl. lia.
Qed.

(** X1.  Without a resume string [generate_word] never raises and yields
    as many words as the alphabet has letters, to the power of the
    number of letters asked for. *)
Theorem generate_word_count (letter_count : Z) (alphabet : string) :
  exists l, generate_word letter_count (Some "") alphabet = inr l
            /\ length l = (String.length alphabet ^ Z.to_nat letter_count)%nat.
Proof.
  unfold generate_word. rewrite generate_letters_plain. simpl.
  eexists. split; [reflexivity|].
  rewrite length_map, length_product_replicate.
  unfold range. by rewrite length_seq, length_list_ascii.
Qed.

Lemma slice_from_drop k alphabet :
  list_ascii_of_string (slice_from k alphabet)
  = drop k (list_ascii_of_string alphabet).
Proof.
  revert alphabet. induction k as [|k IH]; intros [|a r]; simpl; auto.
Qed.

Lemma letters_at_drop start_from alphabet i l :
  letters_at (Some start_from) alphabet i = inr l ->
  exists k, l = drop k (list_ascii_of_string alphabet).
Proof.
  destruct (String.get i start_from) as [r|] eqn:Hr.
  - destruct (str_index r alphabet) as [e|k] eqn:Hk.
    + pose proof (str_index_error _ _ _ Hk) as ->.
      by rewrite (letters_at_outside _ _ _ _ Hr Hk).
    + rewrite (letters_at_resume _ _ _ _ _ Hr Hk). intros [= <-].
      exists k. apply slice_from_drop.
  - rewrite (letters_at_beyond _ _ _ Hr). intros [= <-]. by exists 0%nat.
Qed.

Lemma generate_letters_drop start_from alphabet indices acc ls :
  generate_letters (Some start_from) alphabet indices acc = inr ls ->
  exists ls', ls = acc ++ ls'
    /\ Forall (fun l => exists k, l = drop k (list_ascii_of_string alphabet)) ls'.
Proof.
  revert acc. induction indices as [|i rest IH]; intros acc.
  - simpl. intros [= <-]. exists []. by rewrite app_nil_r.
  - cbn [generate_letters].
    destruct (letters_at (Some start_from) alphabet i) as [e|l] eqn:Hl; [done|].
    cbn [bind]. intros Hgen. destruct (IH _ Hgen) as (ls' & -> & Hall).
    exists (l :: ls'). split; [by rewrite <- app_assoc|].
    constructor; [by eapply letters_at_drop|done].
Qed.

Lemma generate_word_product letter_count start_from alphabet l :
  generate_word letter_count (Some start_from) alphabet = inr l ->
  exists ls, l = map string_of_list_ascii (product ls)
    /\ Forall (fun l => exists k, l = drop k (list_ascii_of_string alphabet)) ls.
Proof.
  unfold generate_word.
  destruct (generate_letters _ _ _ _) as [e|ls] eqn:Hls; [done|].
  cbn [bind]. intros [= <-].
  destruct (generate_letters_drop _ _ _ _ _ Hls) as (ls' & -> & Hall).
  by exists ls'.
Qed.

Lemma NoDup_product {A} (ls : list (list A)) :
  Forall NoDup ls -> NoDup (product ls).
Proof.
  induction 1 as [|l rest Hl _ IH]; simpl.
  - apply NoDup_singleton.
  - induction Hl as [|x l Hx _ IHl]; simpl; [constructor|].
    apply NoDup_app. split; [|split; [|done]].
    + apply (NoDup_fmap_2 (cons x)). done.
    + intros w Hw Hw'. apply list_elem_of_fmap in Hw as (u & -> & _).
      apply list_elem_of_In, in_flat_map in Hw' as (y & Hy & Hw').
      apply in_map_iff in Hw' as (v & [= -> _] & _).
      by apply Hx, list_elem_of_In.
Qed.

#[local] Instance string_of_list_ascii_inj : Inj (=) (=) string_of_list_ascii.
Proof.
  intros u v Huv.
  by rewrite <- (list_ascii_of_string_of_list_ascii u), Huv,
    list_ascii_of_string_of_list_ascii.
Qed.

(** X2.  Over an alphabet without repeated letters no word is yielded
    twice, whatever the resume string. *)
Theorem generate_word_NoDup (letter_count : Z) (start_from alphabet : string)
    (l : list string) :
  NoDup (list_ascii_of_string alphabet) ->
  generate_word letter_count (Some start_from) alphabet = inr l ->
  NoDup l.
Proof.
  intros Halpha Hgen.
  destruct (generate_word_product _ _ _ _ Hgen) as (ls & -> & Hall).
  apply (NoDup_fmap_2 string_of_list_ascii), NoDup_product.
  eapply Forall_impl; [exact Hall|]. intros li [k ->]. simpl.
  eapply sublist_NoDup; [exact Halpha|apply sublist_drop].
Qed.

Lemma generate_word_NoDup_witness :
  NoDup ["ba"; "bb"; "bc"; "ca"; "cb"; "cc"].
Proof.
  apply (generate_word_NoDup 2 "b" "abc"); [|reflexivity].
  apply (bool_decide_unpack _). by vm_compute.
Defined.

Lemma string_lt_cons_same a (u v : list ascii) :
  string_lt (string_of_list_ascii u) (string_of_list_ascii v) ->
  string_lt (string_of_list_ascii (a :: u)) (string_of_list_ascii (a :: v)).
Proof.
  unfold string_lt, String.ltb. simpl.
  assert (Ascii.compare a a = Eq) as -> by apply N.compare_refl. done.
Qed.

Lemma string_lt_cons_lt a b (u v : list ascii) :
  ascii_lt a b ->
  string_lt (string_of_list_ascii (a :: u)) (string_of_list_ascii (b :: v)).
Proof.
  unfold string_lt, ascii_lt, String.ltb, Ascii.ltb. simpl.
  by destruct (Ascii.compare a b).
Qed.

Lemma StronglySorted_product (ls : list (list ascii)) :
  Forall (Sorted.StronglySorted ascii_lt) ls ->
  Sorted.StronglySorted
    (fun u v => string_lt (string_of_list_ascii u) (string_of_list_ascii v))
    (product ls).
Proof.
  induction 1 as [|l rest Hl _ IH]; simpl.
  - repeat constructor.
  - induction Hl as [|x l _ IHl Hx]; simpl; [constructor|].
    apply sorting.StronglySorted_app_2; [| |done].
    + intros w w' Hw Hw'. apply list_elem_of_fmap in Hw as (u & -> & _).
      apply list_elem_of_In, in_flat_map in Hw' as (y & Hy & Hw').
      apply in_map_iff in Hw' as (v & <- & _).
      apply string_lt_cons_lt. rewrite Forall_forall in Hx.
      by apply Hx, list_elem_of_In.
    + eapply (sorting.StronglySorted_fmap (cons x)); [|exact IH].
      intros u v. apply string_lt_cons_same.
Qed.

Lemma StronglySorted_drop {A} (R : relation A) (l : list A) (k : nat) :
  Sorted.StronglySorted R l -> Sorted.StronglySorted R (drop k l).
Proof.
  intros Hl. rewrite <- (take_drop k l) in Hl.
  by apply sorting.StronglySorted_app_1_r in Hl.
Qed.

(** X3.  Over an alphabet whose letters are in increasing order the
    words are yielded in strictly increasing lexicographic order,
    whatever the resume string. *)
Theorem generate_word_sorted (letter_count : Z) (start_from alphabet : string)
    (l : list string) :
  Sorted.StronglySorted ascii_lt (list_ascii_of_string alphabet) ->
  generate_word letter_count (Some start_from) alphabet = inr l ->
  Sorted.StronglySorted string_lt l.
Proof.
  intros Halpha Hgen.
  destruct (generate_word_product _ _ _ _ Hgen) as (ls & -> & Hall).
  eapply (sorting.StronglySorted_fmap string_of_list_ascii);
    [|apply StronglySorted_product].
  - intros u v Huv. exact Huv.
  - eapply Forall_impl; [exact Hall|]. intros li [k ->]. simpl.
    by apply StronglySorted_drop.
Qed.

Lemma generate_word_sorted_witness :
  Sorted.StronglySorted string_lt ["ba"; "bb"; "bc"; "ca"; "cb"; "cc"].
Proof.
  apply (generate_word_sorted 2 "b" "abc"); [|reflexivity].
  repeat constructor.
Defined.

Lemma generate_letters_Forall2 start_from alphabet indices acc ls :
  generate_letters start_from alphabet indices acc = inr ls ->
  exists ls', ls = acc ++ ls'
    /\ Forall2 (fun i l => letters_at start_from alphabet i = inr l) indices ls'.
Proof.
  revert acc. induction indices as [|i rest IH]; intros acc.
  - simpl. intros [= <-]. exists []. by rewrite app_nil_r.
  - cbn [generate_letters].
    destruct (letters_at start_from alphabet i) as [e|l] eqn:Hl; [done|].
    cbn [bind]. intros Hgen. destruct (IH _ Hgen) as (ls' & -> & Hall).
    exists (l :: ls'). split; [by rewrite <- app_assoc|by constructor].
Qed.

Lemma product_head {A} (w : list A) (ls : list (list A)) :
  Forall2 (fun c l => exists t, l = c :: t) w ls ->
  exists rest, product ls = w :: rest.
Proof.
  induction 1 as [|c l w ls [t ->] _ [rest IH]]; simpl; [by exists []|].
  rewrite IH. simpl. eauto.
Qed.

Lemma str_index_slice c alphabet k :
  str_index c alphabet = inr k ->
  exists t, list_ascii_of_string (slice_from k alphabet) = c :: t.
Proof.
  revert k. induction alphabet as [|a r IH]; intros k; simpl; [done|].
  destruct (Ascii.eqb_spec a c) as [->|Hne].
  - intros [= <-]. simpl. eauto.
  - destruct (str_index c r) as [e|k'] eqn:Hk; simpl; [done|].
    intros [= <-]. simpl. by apply IH.
Qed.

(** X4.  A resume string as long as the words asked for, all of whose
    characters are in the alphabet, is itself the first word yielded. *)
Theorem generate_word_starts_at_resume (letter_count : Z)
    (start_from alphabet : string) :
  String.length start_from = Z.to_nat letter_count ->
  malformed_within letter_count start_from alphabet = false ->
  exists rest,
    generate_word letter_count (Some start_from) alphabet
    = inr (start_from :: rest).
Proof.
  intros Hlen Hm. unfold generate_word, malformed_within in *.
  destruct (generate_letters_ok _ _ _ [] Hm) as (ls & Hls & _).
  rewrite Hls. cbn [bind app].
  destruct (generate_letters_Forall2 _ _ _ _ _ Hls) as (ls' & Heq & Hall).
  simpl in Heq. subst ls'.
  destruct (product_head (list_ascii_of_string start_from) ls) as [rest Hrest].
  - apply Forall2_same_length_lookup. split.
    + apply Forall2_length in Hall. unfold range in Hall.
      rewrite length_seq in Hall. by rewrite length_list_ascii, Hlen.
    + intros i c l Hc Hl.
      destruct (Forall2_lookup_r _ _ _ _ _ Hall Hl) as (j & Hj & Hlj).
      unfold range in Hj. apply lookup_seq in Hj as [-> _]. simpl in Hlj.
      rewrite <- get_lookup in Hc.
      destruct (str_index c alphabet) as [e|k] eqn:Hk.
      * pose proof (str_index_error _ _ _ Hk) as ->.
        by rewrite (letters_at_outside _ _ _ _ Hc Hk) in Hlj.
      * rewrite (letters_at_resume _ _ _ _ _ Hc Hk) in Hlj.
        injection Hlj as <-. by eapply str_index_slice.
  - rewrite Hrest. simpl. rewrite string_of_list_ascii_of_string. eauto.
Qed.

Lemma generate_word_starts_at_resume_witness :
  exists rest, generate_word 3 (Some "fjl") ascii_lowercase = inr ("fjl" :: rest).
Proof.
  apply (generate_word_starts_at_resume 3 "fjl" ascii_lowercase); reflexivity.
Defined.

Lemma generate_word_None letter_count alphabet :
  0 < letter_count -> generate_word letter_count None alphabet = inl TypeError.
Proof.
  intros Hpos. unfold generate_word, range.
  destruct (Z.to_nat letter_count) as [|k] eqn:Hk; [lia|]. reflexivity.
Qed.

(** X5.  Asked for generated words of at least one letter with no resume
    string on the command line, [main] hands [None] to [generate_word],
    which raises [TypeError] when it subscripts it: no engine is
    constructed. *)
Theorem main_generator_without_from (fs : filesystem) (now : Z)
    (args : arguments) (n : Z) :
  if_truthy (arg_file args) = None ->
  arg_generator args = Some n ->
  0 < n ->
  if_truthy (arg_from args) = None ->
  main fs now args = inl TypeError.
Proof.
  intros Hfile Hgen Hn Hfrom. unfold main. rewrite Hfile, Hgen, Hfrom.
  destruct (Z.eqb_spec n 0) as [->|_]; [lia|].
  by rewrite generate_word_None.
Qed.

Lemma main_generator_without_from_witness :
  main testfile 0 (plain_generator_args 3) = inl TypeError.
Proof.
  apply (main_generator_without_from testfile 0 (plain_generator_args 3) 3);
    reflexivity.
Defined.

(** X6.  A word length of zero counts as no word source ([ValueError]);
    a negative one is accepted and the engine is constructed over one
    word, the empty string, whatever the resume string. *)
Theorem main_generator_not_positive (fs : filesystem) (now : Z)
    (args : arguments) (n : Z) :
  if_truthy (arg_file args) = None ->
  arg_generator args = Some n ->
  n <= 0 ->
  main fs now args
  = if n =? 0 then inl ValueError
    else inr (Model.init (arg_domain args) true (inr [""%string])
                (arg_thread_limit args) now).
Proof.
  intros Hfile Hgen Hn. unfold main. rewrite Hfile, Hgen.
  destruct (Z.eqb_spec n 0) as [->|Hne]; [done|].
  unfold generate_word, range.
  assert (Z.to_nat n = 0%nat) as -> by lia. reflexivity.
Qed.

Lemma main_generator_not_positive_witness :
  main testfile 0 (generator_args (-2) "zz")
  = inr (Model.init "example.com" true (inr [""%string]) 100 0).
Proof.
  apply (main_generator_not_positive testfile 0 (generator_args (-2) "zz") (-2));
    [reflexivity|reflexivity|lia].
Defined.

End more_generated_source.

Section more_file_source.
Import Controller.
Local Open Scope list_scope.

Lemma resume_at_split marker ws :
  exists before,
    ws = before ++ resume_at marker ws
    /\ (marker ∉ before)
    /\ (marker ∈ ws -> exists rest, resume_at marker ws = marker :: rest).
Proof.
  induction ws as [|w ws (before & Heq & Hnot & Hin)]; simpl.
  - exists []. repeat split; [apply not_elem_of_nil|].
    by intros ?%elem_of_nil.
  - case_bool_decide as Hw.
    + subst w. exists []. repeat split; [apply not_elem_of_nil|eauto].
    + exists (w :: before). repeat split.
      * simpl. by rewrite <- Heq.
      * intros [?|?]%elem_of_cons; [congruence|done].
      * intros [?|?]%elem_of_cons; [congruence|auto].
Qed.

(** X7.  With a resume marker the words yielded are a suffix of the
    trimmed lines of the file: those before it do not contain the marker,
    and if the marker occurs at all the suffix starts with it.  Without
    a marker every line is yielded, trimmed, blank lines included. *)
Theorem get_words_from_file_suffix (fs : filesystem)
    (file_name content marker : string) :
  fs file_name = Some content ->
  (exists before yielded,
      get_words_from_file fs file_name (Some marker) = inr yielded
      /\ map strip_sp_nl (file_lines content) = before ++ yielded
      /\ (marker ∉ before)
      /\ (marker ∈ map strip_sp_nl (file_lines content) ->
          exists rest, yielded = marker :: rest))
  /\ get_words_from_file fs file_name None
     = inr (map strip_sp_nl (file_lines content)).
Proof.
  intros Hfs. unfold get_words_from_file. rewrite Hfs. split.
  - destruct (resume_at_split marker (map strip_sp_nl (file_lines content)))
      as (before & Heq & Hnot & Hin).
    exists before, (resume_at marker (map strip_sp_nl (file_lines content))).
    by rewrite get_words_loop_Some.
  - by rewrite get_words_loop_None.
Qed.

Lemma get_words_from_file_suffix_witness :
  (exists before yielded,
      get_words_from_file testfile "testfile.txt" (Some "sit") = inr yielded
      /\ map strip_sp_nl (file_lines testfile_content) = before ++ yielded
      /\ ("sit" ∉ before)
      /\ ("sit" ∈ map strip_sp_nl (file_lines testfile_content) ->
          exists rest, yielded = "sit" :: rest))
  /\ get_words_from_file testfile "testfile.txt" None
     = inr (map strip_sp_nl (file_lines testfile_content)).
Proof.
  apply (get_words_from_file_suffix testfile "testfile.txt" testfile_content "sit").
  reflexivity.
Defined.

Lemma lstrip_chars_idemp chars s :
  lstrip_chars chars (lstrip_chars chars s) = lstrip_chars chars s.
Proof.
  induction s as [|c s IH]; simpl; [done|].
  destruct (mem_ascii c chars) eqn:Hc; [done|]. simpl. by rewrite Hc.
Qed.

Lemma lstrip_chars_suffix chars s :
  exists dropped, s = dropped ++ lstrip_chars chars s.
Proof.
  induction s as [|c s [dropped IH]]; simpl; [by exists []|].
  destruct (mem_ascii c chars); [|by exists []].
  exists (c :: dropped). simpl. by rewrite <- IH.
Qed.

Lemma rstrip_chars_idemp chars s :
  rstrip_chars chars (rstrip_chars chars s) = rstrip_chars chars s.
Proof.
  unfold rstrip_chars. by rewrite rev_involutive, lstrip_chars_idemp.
Qed.

Lemma rstrip_chars_prefix chars s :
  exists dropped, s = rstrip_chars chars s ++ dropped.
Proof.
  unfold rstrip_chars.
  destruct (lstrip_chars_suffix chars (rev s)) as [dropped Hd].
  exists (rev dropped). rewrite <- rev_app_distr, <- Hd.
  by rewrite rev_involutive.
Qed.

(** Trimming the right end does not uncover anything to trim on the
    left. *)
Lemma lstrip_rstrip_lstrip chars s :
  lstrip_chars chars (rstrip_chars chars (lstrip_chars chars s))
  = rstrip_chars chars (lstrip_chars chars s).
Proof.
  pose proof (lstrip_chars_idemp chars s) as Hidem.
  destruct (rstrip_chars_prefix chars (lstrip_chars chars s)) as [dropped Hd].
  destruct (rstrip_chars chars (lstrip_chars chars s)) as [|c r]; [done|].
  rewrite Hd in Hidem. simpl in *.
  destruct (mem_ascii c chars); [|done].
  exfalso. destruct (lstrip_chars_suffix chars (r ++ dropped)) as [d' Hd'].
  apply (f_equal length) in Hidem. rewrite Hd' in Hidem at 2.
  simpl in Hidem. rewrite length_app in Hidem. lia.
Qed.

Lemma strip_idemp chars s : strip chars (strip chars s) = strip chars s.
Proof.
  unfold strip. fold (rstrip_chars chars).
  change (rev (lstrip_chars chars (rev ?x))) with (rstrip_chars chars x).
  rewrite list_ascii_of_string_of_list_ascii.
  fold (rstrip_chars chars (lstrip_chars chars (list_ascii_of_string s))).
  fold (rstrip_chars chars
          (lstrip_chars chars
             (rstrip_chars chars (lstrip_chars chars (list_ascii_of_string s))))).
  by rewrite lstrip_rstrip_lstrip, rstrip_chars_idemp.
Qed.

(** X8.  Lines are trimmed before they are compared with the marker, the
    marker is not: a marker that starts or ends with a blank or a
    newline matches no line, and nothing is yielded. *)
Theorem get_words_from_file_untrimmed_marker (fs : filesystem)
    (file_name content marker : string) :
  fs file_name = Some content ->
  strip_sp_nl marker <> marker ->
  get_words_from_file fs file_name (Some marker) = inr [].
Proof.
  intros Hfs Hmarker. apply (get_words_from_file_no_match fs _ content); [done|].
  intros line _ Heq. apply Hmarker. rewrite <- Heq. apply strip_idemp.
Qed.

Lemma get_words_from_file_untrimmed_marker_witness :
  get_words_from_file testfile "testfile.txt" (Some "dolor ") = inr [].
Proof.
  apply (get_words_from_file_untrimmed_marker testfile "testfile.txt"
           testfile_content "dolor "); [reflexivity|by vm_compute].
Defined.

End more_file_source.

(** ** More on the engine *)

Section more_engine.
Import Model.
Local Open Scope list_scope.

Implicit Types (m : model) (a : action) (schedule : list action).

(** *** What a step can change *)

(** A step of [bruteforce] leaves the set alone, adds at most the
    completion call, and starts at most one thread, for the word it is
    at. *)
Lemma bruteforce_step_effect m pick :
  base_domain (bruteforce_step pick m) = base_domain m
  /\ view (bruteforce_step pick m) = view m
  /\ found_subdomains (bruteforce_step pick m) = found_subdomains m
  /\ (calls (bruteforce_step pick m) = calls m
      \/ calls (bruteforce_step pick m)
         = calls m ++ [completed (found_subdomains m)])
  /\ (threads (bruteforce_step pick m) = threads m
      \/ exists w, bruteforce_thread m = PStart w
           /\ threads (bruteforce_step pick m)
              = threads m ++ [TResolve (candidate (base_domain m) w)]).
Proof.
  unfold bruteforce_step, terminated.
  destruct (bruteforce_thread m) as [|w|w|sub t|sub|sub t|sub| |[|t rest]| | | |e] eqn:Hpc;
    repeat case_bool_decide;
    try destruct (words m) as [e'|[|w' rest']];
    try destruct (dns_working m);
    try (destruct (view m) eqn:Hview);
    msimpl; rewrite ?Hview; repeat split; eauto.
Qed.

(** *** The engine against its word list and the resolver *)

Lemma source_ok_init domain has_view ws0 resolver limit now :
  source_ok domain ws0 resolver (init domain has_view (inr ws0) limit now).
Proof.
  repeat split.
  - intros i st Hi. msimpl. by rewrite lookup_nil in Hi.
  - intros d Hd. msimpl. by apply not_elem_of_empty in Hd.
  - intros d Hd. msimpl. by apply elem_of_nil in Hd.
Qed.

Lemma thread_ok_mono resolver m m' st d :
  found_subdomains m ⊆ found_subdomains m' ->
  (forall c, c ∈ calls m -> c ∈ calls m') ->
  view m' = view m ->
  thread_ok resolver m st d -> thread_ok resolver m' st d.
Proof.
  intros Hfound Hcalls Hview. destruct st; simpl; try done.
  - intros (? & ? & ?). auto.
  - intros H Hr. destruct (H Hr) as [? Hc]. rewrite Hview. auto.
Qed.

Lemma dispatched_le_words domain ws0 resolver m :
  source_ok domain ws0 resolver m -> (dispatched m <= length ws0)%nat.
Proof.
  intros (_ & _ & Hthreads & _). unfold dispatched.
  destruct (threads m) as [|st l _] using rev_ind; [simpl; lia|].
  destruct (Hthreads (length l) st) as (w & Hw & _).
  { by apply list_lookup_middle. }
  apply lookup_lt_Some in Hw. rewrite length_app. simpl. lia.
Qed.

Lemma drop_cons_inv {A} (l : list A) (k : nat) (x : A) (rest : list A) :
  drop k l = x :: rest -> l !! k = Some x /\ rest = drop (S k) l.
Proof.
  intros Hd.
  assert (l !! k = Some x) as Hk.
  { rewrite <- (Nat.add_0_r k), <- lookup_drop, Hd. done. }
  split; [done|]. rewrite (drop_S _ _ _ Hk) in Hd. congruence.
Qed.

Lemma position_ok_bruteforce_step ws0 m pick :
  (dispatched m <= length ws0)%nat ->
  position_ok ws0 m -> position_ok ws0 (bruteforce_step pick m).
Proof.
  intros Hle. unfold position_ok, bruteforce_step, terminated, dispatched in *.
  destruct (bruteforce_thread m) as [|w|w|sub t|sub|sub t|sub| |[|t rest]| | | |e] eqn:Hpc;
    intros Hpos.
  - rewrite Hpos. destruct (drop (length (threads m)) ws0) as [|w rest] eqn:Hd;
      msimpl.
    + split; [done|]. apply (f_equal length) in Hd.
      rewrite length_drop in Hd. simpl in Hd. lia.
    + by destruct (drop_cons_inv _ _ _ _ Hd) as [? ->].
  - destruct (dns_working m); msimpl; by rewrite ?Hpc.
  - msimpl. destruct Hpos as [_ ->]. rewrite length_app. simpl.
    by rewrite Nat.add_1_r.
  - by msimpl.
  - repeat case_bool_decide; msimpl; by rewrite ?Hpc.
  - case_bool_decide; msimpl; by rewrite ?Hpc.
  - by msimpl.
  - by msimpl.
  - by msimpl.
  - case_bool_decide; msimpl; by rewrite ?Hpc.
  - by msimpl.
  - by destruct (view m); msimpl.
  - by rewrite Hpc.
  - by rewrite Hpc.
Qed.

Lemma source_ok_bruteforce_step domain ws0 resolver m pick :
  source_ok domain ws0 resolver m ->
  source_ok domain ws0 resolver (bruteforce_step pick m).
Proof.
  intros Hok. pose proof (dispatched_le_words _ _ _ _ Hok) as Hle.
  destruct Hok as (Hbase & Hpos & Hthreads & Hfound & Hcalls).
  destruct (bruteforce_step_effect m pick)
    as (Hb & Hv & Hf & Hc & Ht).
  assert (Hmono : forall st d, thread_ok resolver m st d ->
                    thread_ok resolver (bruteforce_step pick m) st d).
  { intros st d. apply thread_ok_mono; [by rewrite Hf| |done].
    intros c Hin. destruct Hc as [-> | ->]; [done|].
    apply elem_of_app. by left. }
  split; [congruence|]. split; [by apply position_ok_bruteforce_step|].
  split; [|split].
  - intros i st Hi. destruct Ht as [Ht|(w & Hpc & Ht)]; rewrite Ht in Hi.
    + destruct (Hthreads i st Hi) as (w & Hw & Hst). eauto.
    + apply lookup_app_Some in Hi as [Hi|[Hge Hi]].
      * destruct (Hthreads i st Hi) as (w' & Hw & Hst). eauto.
      * apply list_lookup_singleton_Some in Hi as [Hi <-].
        unfold position_ok in Hpos. rewrite Hpc in Hpos.
        destruct Hpos as [Hw _]. unfold dispatched in Hw.
        assert (i = length (threads m)) as -> by lia.
        exists w. split; [done|]. simpl. by rewrite Hbase.
  - rewrite Hf. exact Hfound.
  - rewrite Hf. intros d Hd. apply Hcalls.
    destruct Hc as [Hc|Hc]; rewrite Hc in Hd; [done|].
    apply elem_of_app in Hd as [Hd|Hd]; [done|].
    by apply list_elem_of_singleton in Hd.
Qed.

Lemma position_words_check_domain_step m t answer :
  thread_limit (check_domain_step t answer m) = thread_limit m
  /\ words (check_domain_step t answer m) = words m
  /\ complete_bruteforcing (check_domain_step t answer m)
     = complete_bruteforcing m.
Proof.
  unfold check_domain_step. by destruct (threads m !! t) as [[d|d|d|]|].
Qed.

Lemma position_ok_check_domain_step ws0 m t answer :
  position_ok ws0 m -> position_ok ws0 (check_domain_step t answer m).
Proof.
  unfold position_ok.
  rewrite bruteforce_thread_check_domain_step, dispatched_check_domain_step.
  by rewrite (proj1 (proj2 (position_words_check_domain_step m t answer))).
Qed.

Lemma source_ok_check_domain_step domain ws0 resolver m t answer :
  step_agrees resolver m (run_check_domain t answer) = true ->
  source_ok domain ws0 resolver m ->
  source_ok domain ws0 resolver (check_domain_step t answer m).
Proof.
  intros Hagree Hok.
  pose proof (position_ok_check_domain_step ws0 m t answer) as Hpos'.
  destruct Hok as (Hbase & Hpos & Hthreads & Hfound & Hcalls).
  specialize (Hpos' Hpos). revert Hpos'.
  unfold step_agrees in Hagree. unfold check_domain_step.
  destruct (threads m !! t) as [[d|d|d|]|] eqn:Ht; try done; intros Hpos'.
  - (* the resolver is asked *)
    apply bool_decide_eq_true in Hagree.
    destruct (Hthreads t _ Ht) as (w & Hw & Hd). simpl in Hd. subst d.
    repeat split; try done. msimpl. intros i st Hi.
    destruct (decide (i = t)) as [->|Hne].
    + rewrite list_lookup_insert_eq in Hi by by eapply lookup_lt_Some.
      injection Hi as <-. exists w. split; [done|].
      destruct answer; simpl; [by split|]. intros Hr. congruence.
    + rewrite list_lookup_insert_ne in Hi by done.
      destruct (Hthreads i st Hi) as (w' & Hw' & Hst). eauto.
  - (* the name is added to the set *)
    destruct (Hthreads t _ Ht) as (w & Hw & Hd & Hr). simpl in Hd. subst d.
    repeat split; try done; msimpl.
    + intros i st Hi. destruct (decide (i = t)) as [->|Hne].
      * rewrite list_lookup_insert_eq in Hi by by eapply lookup_lt_Some.
        injection Hi as <-. exists w. split; [done|].
        destruct (view m) eqn:Hview; simpl.
        -- repeat split; try done. apply elem_of_union_l.
           by apply elem_of_singleton.
        -- intros _. split; [|by rewrite Hview].
           apply elem_of_union_l. by apply elem_of_singleton.
      * rewrite list_lookup_insert_ne in Hi by done.
        destruct (Hthreads i st Hi) as (w' & Hw' & Hst). exists w'.
        split; [done|]. revert Hst. apply thread_ok_mono; msimpl; try done.
        apply union_subseteq_r.
    + intros d [Hd|Hd]%elem_of_union; [|by apply Hfound].
      apply elem_of_singleton in Hd as ->. exists w. repeat split; try done.
      by eapply list_elem_of_lookup_2.
    + intros d Hd. apply elem_of_union_r. by apply Hcalls.
  - (* the view is told *)
    destruct (Hthreads t _ Ht) as (w & Hw & Hd & Hr & Hin). simpl in Hd. subst d.
    repeat split; try done; msimpl.
    + intros i st Hi. destruct (decide (i = t)) as [->|Hne].
      * rewrite list_lookup_insert_eq in Hi by by eapply lookup_lt_Some.
        injection Hi as <-. exists w. split; [done|]. simpl. msimpl.
        intros _. split; [done|]. intros _. apply elem_of_app. right.
        by apply list_elem_of_singleton.
      * rewrite list_lookup_insert_ne in Hi by done.
        destruct (Hthreads i st Hi) as (w' & Hw' & Hst). exists w'.
        split; [done|]. revert Hst. apply thread_ok_mono; msimpl; try done.
        intros c Hc. apply elem_of_app. by left.
    + intros d [Hd|Hd]%elem_of_app; [by apply Hcalls|].
      by apply list_elem_of_singleton in Hd as [= ->].
Qed.

Lemma source_ok_dns_checker_step domain ws0 resolver m answer :
  source_ok domain ws0 resolver m ->
  source_ok domain ws0 resolver (dns_checker_step answer m).
Proof.
  unfold dns_checker_step.
  by destruct (dns_checker_thread m); try destruct (complete_bruteforcing m).
Qed.

Lemma source_ok_exec domain ws0 resolver m schedule :
  source_ok domain ws0 resolver m ->
  answers_agree resolver m schedule = true ->
  source_ok domain ws0 resolver (exec m schedule).
Proof.
  revert m. induction schedule as [|a rest IH]; intros m Hok Hagree; [done|].
  simpl in Hagree. apply andb_true_iff in Hagree as [Ha Hrest].
  simpl. apply IH; [|done].
  destruct a as [pick|t answer|answer]; simpl.
  - by apply source_ok_bruteforce_step.
  - by apply source_ok_check_domain_step.
  - by apply source_ok_dns_checker_step.
Qed.

(** X9.  Whatever the interleaving, if every attempt is answered as the
    resolver says, then once [bruteforce] has returned the set holds
    exactly the candidates [word.domain] (trimmed) of the word list that
    resolve. *)
Theorem found_subdomains_are_resolving_candidates (domain : string)
    (has_view : bool) (ws0 : list string) (resolver : string -> bool)
    (limit now : Z) (schedule : list action) :
  answers_agree resolver (init domain has_view (inr ws0) limit now) schedule
    = true ->
  let m := exec (init domain has_view (inr ws0) limit now) schedule in
  bruteforce_thread m = PDone ->
  forall d, d ∈ found_subdomains m <->
            exists w, w ∈ ws0 /\ d = candidate domain w /\ resolver d = true.
Proof.
  intros Hagree m Hpc d.
  pose proof (source_ok_exec domain ws0 resolver _ schedule
                (source_ok_init domain has_view ws0 resolver limit now) Hagree)
    as Hok.
  pose proof (threads_ok_exec domain has_view (inr ws0) limit now schedule)
    as Hthr.
  fold m in Hok, Hthr.
  destruct Hok as (Hbase & Hpos & Hthreads & Hfound & Hcalls).
  split; [apply Hfound|].
  intros (w & Hw & -> & Hr).
  apply list_elem_of_lookup in Hw as [i Hi].
  unfold position_ok in Hpos. rewrite Hpc in Hpos. destruct Hpos as [_ Hlen].
  assert (i < length (threads m))%nat as Hlt.
  { apply lookup_lt_Some in Hi. unfold dispatched in Hlen. lia. }
  destruct (lookup_lt_is_Some_2 _ _ Hlt) as [st Hst].
  assert (st = TDone) as -> by (eapply all_done_after_joins; eauto).
  destruct (Hthreads i TDone Hst) as (w' & Hw' & Hdone).
  assert (w' = w) as -> by congruence.
  by destruct (Hdone Hr).
Qed.

Lemma found_subdomains_are_resolving_candidates_witness :
  "drive.google.com"
  ∈ found_subdomains (exec test_bruteforce_init test_bruteforce_schedule).
Proof.
  apply (found_subdomains_are_resolving_candidates "google.com" true
           ["cieufhcne"; "maps"; "oicunf"; "drive"] test_resolver 100 0
           test_bruteforce_schedule); [by vm_compute|by vm_compute|].
  exists "drive". split; [|by vm_compute].
  apply list_elem_of_In. simpl. tauto.
Defined.

(** X10.  With a view, under the same assumption, the view is only ever
    told of names that are in the set, and once [bruteforce] has
    returned it has been told of every name in the set. *)
Theorem view_told_of_found_subdomains (domain : string)
    (ws0 : list string) (resolver : string -> bool)
    (limit now : Z) (schedule : list action) :
  answers_agree resolver (init domain true (inr ws0) limit now) schedule
    = true ->
  let m := exec (init domain true (inr ws0) limit now) schedule in
  (forall d, found_subdomain d ∈ calls m -> d ∈ found_subdomains m)
  /\ (bruteforce_thread m = PDone ->
      forall d, d ∈ found_subdomains m -> found_subdomain d ∈ calls m).
Proof.
  intros Hagree m.
  pose proof (source_ok_exec domain ws0 resolver _ schedule
                (source_ok_init domain true ws0 resolver limit now) Hagree)
    as Hok.
  pose proof (threads_ok_exec domain true (inr ws0) limit now schedule)
    as Hthr.
  pose proof (view_exec (init domain true (inr ws0) limit now) schedule)
    as Hview.
  fold m in Hok, Hthr, Hview.
  destruct Hok as (Hbase & Hpos & Hthreads & Hfound & Hcalls).
  split; [exact Hcalls|]. intros Hpc d Hd.
  destruct (Hfound d Hd) as (w & Hw & -> & Hr).
  apply list_elem_of_lookup in Hw as [i Hi].
  unfold position_ok in Hpos. rewrite Hpc in Hpos. destruct Hpos as [_ Hlen].
  assert (i < length (threads m))%nat as Hlt.
  { apply lookup_lt_Some in Hi. unfold dispatched in Hlen. lia. }
  destruct (lookup_lt_is_Some_2 _ _ Hlt) as [st Hst].
  assert (st = TDone) as -> by (eapply all_done_after_joins; eauto).
  destruct (Hthreads i TDone Hst) as (w' & Hw' & Hdone).
  assert (w' = w) as -> by congruence.
  destruct (Hdone Hr) as [_ Htold]. by apply Htold.
Qed.

Lemma view_told_of_found_subdomains_witness :
  found_subdomain "maps.google.com"
  ∈ calls (exec test_bruteforce_init test_bruteforce_schedule).
Proof.
  apply (view_told_of_found_subdomains "google.com"
           ["cieufhcne"; "maps"; "oicunf"; "drive"] test_resolver 100 0
           test_bruteforce_schedule); by vm_compute.
Defined.

(** *** Every word once *)

Lemma position_le_step ws0 m a :
  position_ok ws0 m /\ (dispatched m <= length ws0)%nat ->
  position_ok ws0 (step m a) /\ (dispatched (step m a) <= length ws0)%nat.
Proof.
  intros [Hpos Hle]. destruct a as [pick|t answer|answer]; simpl.
  - split; [by apply position_ok_bruteforce_step|].
    destruct (bruteforce_step_effect m pick) as (_ & _ & _ & _ & Ht).
    unfold dispatched in *. destruct Ht as [->|(w & Hpc & ->)]; [done|].
    unfold position_ok in Hpos. rewrite Hpc in Hpos. destruct Hpos as [Hw _].
    apply lookup_lt_Some in Hw. rewrite length_app. simpl.
    unfold dispatched in Hw. lia.
  - split; [by apply position_ok_check_domain_step|].
    by rewrite dispatched_check_domain_step.
  - unfold dns_checker_step.
    by destruct (dns_checker_thread m); try destruct (complete_bruteforcing m).
Qed.

(** X11.  Along every run no more threads are started than there are
    words, and once [bruteforce] has returned exactly one thread has
    been started per word and the counter equals the number of words. *)
Theorem every_word_attempted_once (domain : string) (has_view : bool)
    (ws0 : list string) (limit now : Z) (schedule : list action) :
  let m := exec (init domain has_view (inr ws0) limit now) schedule in
  (dispatched m <= length ws0)%nat
  /\ (bruteforce_thread m = PDone ->
      dispatched m = length ws0
      /\ checked_subdomains_count m = Z.of_nat (length ws0)).
Proof.
  intros m.
  assert (position_ok ws0 m /\ (dispatched m <= length ws0)%nat) as [Hpos Hle].
  { apply (exec_invariant
             (fun m => position_ok ws0 m /\ (dispatched m <= length ws0)%nat)).
    - split; [reflexivity|]. unfold dispatched. simpl. lia.
    - intros m' a. apply position_le_step. }
  assert (count_ok m) as Hcount.
  { apply exec_invariant; [apply count_ok_init|apply count_ok_step]. }
  split; [done|]. intros Hpc.
  unfold position_ok, count_ok in *. rewrite Hpc in *. simpl in Hcount.
  destruct Hpos as [_ Hlen]. split; [done|]. lia.
Qed.

Lemma every_word_attempted_once_witness :
  let m := exec test_bruteforce_init test_bruteforce_schedule in
  dispatched m = 4%nat /\ checked_subdomains_count m = 4.
Proof.
  apply (every_word_attempted_once "google.com" true
           ["cieufhcne"; "maps"; "oicunf"; "drive"] 100 0
           test_bruteforce_schedule). by vm_compute.
Defined.

(** *** What never goes back *)

Lemma extends_refl {A} (l : list A) : exists more, l = l ++ more.
Proof. exists []. by rewrite app_nil_r. Qed.

Lemma extends_snoc {A} (l : list A) (x : A) : exists more, l ++ [x] = l ++ more.
Proof. by exists [x]. Qed.

Lemma step_monotone m a :
  found_subdomains m ⊆ found_subdomains (step m a)
  /\ checked_subdomains_count m <= checked_subdomains_count (step m a)
  /\ (exists more, calls (step m a) = calls m ++ more)
  /\ (complete_bruteforcing m = true -> complete_bruteforcing (step m a) = true).
Proof.
  destruct a as [pick|t answer|answer]; simpl.
  - unfold bruteforce_step, terminated.
    destruct (bruteforce_thread m) as [|w|w|sub t|sub|sub t|sub| |[|t rest]| | | |e];
      repeat case_bool_decide;
      try destruct (words m) as [e'|[|w' rest']];
      try destruct (dns_working m);
      try destruct (view m);
      msimpl; (split; [done|split; [lia|split; [|done]]]);
      auto using extends_refl, extends_snoc.
  - unfold check_domain_step.
    destruct (threads m !! t) as [[d|d|d|]|]; msimpl;
      (split; [|split; [lia|split; [|done]]]);
      try done; try apply union_subseteq_r;
      auto using extends_refl, extends_snoc.
  - unfold dns_checker_step.
    destruct (dns_checker_thread m);
      msimpl; (split; [done|split; [lia|split; [|done]]]);
      auto using extends_refl.
Qed.

(** X12.  From any state and under any schedule the set only grows,
    the counter never decreases, the calls made on the view are only
    added to, and [complete_bruteforcing] once set stays set. *)
Theorem run_never_goes_back (m : model) (schedule : list action) :
  let m' := exec m schedule in
  found_subdomains m ⊆ found_subdomains m'
  /\ checked_subdomains_count m <= checked_subdomains_count m'
  /\ (exists more, calls m' = calls m ++ more)
  /\ (complete_bruteforcing m = true -> complete_bruteforcing m' = true).
Proof.
  revert m. induction schedule as [|a rest IH]; intros m; simpl.
  - split; [done|split; [lia|split; [apply extends_refl|done]]].
  - destruct (step_monotone m a) as (Hf & Hc & [more1 Hm1] & Hl).
    destruct (IH (step m a)) as (Hf' & Hc' & [more2 Hm2] & Hl').
    unfold exec in *. split; [|split; [|split]].
    + by etrans.
    + lia.
    + exists (more1 ++ more2). by rewrite Hm2, Hm1, app_assoc.
    + auto.
Qed.

Lemma run_never_goes_back_witness :
  complete_bruteforcing
    (exec (exec test_bruteforce_init test_bruteforce_schedule)
       (dns_down ++ bruteforce_steps 3 0)) = true.
Proof.
  apply (run_never_goes_back
           (exec test_bruteforce_init test_bruteforce_schedule)
           (dns_down ++ bruteforce_steps 3 0)). by vm_compute.
Defined.

(** *** A word source that raises *)




(** *** The two events of the health check *)

Lemma events_ok_step m a : events_ok m -> events_ok (step m a).
Proof.
  unfold events_ok. destruct a as [pick|t answer|answer]; simpl.
  - unfold bruteforce_step, terminated.
    destruct (bruteforce_thread m) as [|w|w|sub t|sub|sub t|sub| |[|t rest]| | | |e];
      repeat case_bool_decide;
      try destruct (words m) as [e'|[|w' rest']];
      try destruct (dns_working m) eqn:Hdns;
      try destruct (view m);
      msimpl; by rewrite ?Hdns.
  - unfold check_domain_step.
    by destruct (threads m !! t) as [[d|d|d|]|].
  - unfold dns_checker_step.
    destruct (dns_checker_thread m) as [| |ok|ok|] eqn:Hpc; msimpl;
      rewrite ?Hpc; try done.
    + by destruct (complete_bruteforcing m).
    + by intros ->.
Qed.

(** X14.  Along every run [dns_not_working] is set exactly when
    [dns_working] is clear, except while [dns_checker] is between its
    two updates, where [dns_working] already has its new value. *)
Theorem dns_events_mirror (domain : string) (has_view : bool)
    (ws : result (list string)) (limit now : Z) (schedule : list action) :
  let m := exec (init domain has_view ws limit now) schedule in
  match dns_checker_thread m with
  | CSecond ok => dns_working m = ok
  | _ => dns_not_working m = negb (dns_working m)
  end.
Proof.
  apply (exec_invariant events_ok); [reflexivity|apply events_ok_step].
Qed.

(** *** A negative thread limit *)

Lemma negative_limit_ok_step ws m a :
  thread_limit m < 0 ->
  negative_limit_ok ws m -> negative_limit_ok ws (step m a).
Proof.
  intros Hneg [Hcount Hpc]. unfold negative_limit_ok.
  destruct a as [pick|t answer|answer]; simpl.
  - unfold bruteforce_step, terminated, dispatched in *.
    destruct (bruteforce_thread m) as [|w|w|sub t|sub|sub t|sub| |[|t rest]| | | |e] eqn:Hb.
    + destruct Hpc as [Hd <-].
      destruct (words m) as [e'|[|w' rest']]; msimpl; repeat split; auto; lia.
    + destruct (dns_working m); msimpl; by rewrite ?Hb.
    + msimpl. split; [done|]. rewrite length_app, Hpc. done.
    + by msimpl.
    + repeat case_bool_decide; msimpl; rewrite ?Hb; try done; [split; [done|lia]|].
      pose proof (Nat2Z.is_nonneg (size (subdomain_threads m))). lia.
    + case_bool_decide; msimpl; by rewrite ?Hb.
    + done.
    + done.
    + by msimpl.
    + case_bool_decide; msimpl; by rewrite ?Hb.
    + by msimpl.
    + by destruct (view m); msimpl.
    + by rewrite Hb.
    + by rewrite Hb.
  - by rewrite bruteforce_thread_check_domain_step,
      checked_subdomains_count_check_domain_step, dispatched_check_domain_step,
      (proj1 (proj2 (position_words_check_domain_step m t answer))).
  - unfold dns_checker_step. by destruct (dns_checker_thread m).
Qed.

(** Take the first step of a run on a state whose fields are known. *)
Ltac run_step :=
  rewrite exec_cons;
  cbv beta iota zeta delta
    [step bruteforce_step check_domain_step terminated
     base_domain view words thread_limit found_subdomains
     checked_subdomains_count latest subdomain_threads dns_working
     dns_not_working complete_bruteforcing start_time threads
     bruteforce_thread dns_checker_thread calls
     set_words set_found_subdomains set_checked_subdomains_count set_latest
     set_subdomain_threads set_dns_working set_dns_not_working
     set_complete_bruteforcing set_threads set_bruteforce_thread
     set_dns_checker_thread set_calls].

(** With a word to check, [thread_limiter] pops the one thread, joins
    it, and pops again from the empty set. *)
Lemma negative_limit_crashes domain has_view w rest limit now :
  limit < 0 ->
  bruteforce_thread
    (exec (init domain has_view (inr (w :: rest)) limit now)
       (dns_up ++ bruteforce_steps 5 0 ++ check_domain_run 0 false
        ++ bruteforce_steps 2 0))
  = PCrashed KeyError.
Proof.
  intros Hneg.
  assert (Hone : size (({[0%nat]} : gset nat) ∪ ∅) = 1%nat).
  { by rewrite (right_id_L ∅ (∪)), size_singleton. }
  assert (Hzero : (({[0%nat]} : gset nat) ∪ ∅) ∖ {[0%nat]} = ∅).
  { apply set_eq. intros x. rewrite elem_of_difference, elem_of_union.
    split; [|by intros ?%not_elem_of_empty]. intros [[?|?%not_elem_of_empty] ?]; done. }
  rewrite exec_app.
  change (exec (init domain has_view (inr (w :: rest)) limit now) dns_up)
    with (set_dns_checker_thread (CSecond true)
            (set_dns_working true
               (init domain has_view (inr (w :: rest)) limit now))).
  cbv [bruteforce_steps check_domain_run replicate app init
       set_dns_checker_thread set_dns_working
       base_domain view words thread_limit found_subdomains
       checked_subdomains_count latest subdomain_threads dns_working
       dns_not_working complete_bruteforcing start_time threads
       bruteforce_thread dns_checker_thread calls].
  do 4 run_step. cbn [length app].
  run_step. rewrite Hone.
  rewrite bool_decide_eq_true_2 by lia.
  rewrite (bool_decide_eq_false_2 (_ = ∅)).
  2:{ intros Hempty. apply (f_equal size) in Hempty.
      rewrite Hone, size_empty in Hempty. done. }
  rewrite (bool_decide_eq_true_2 (0%nat ∈ _))
    by (apply elem_of_union_l; by apply elem_of_singleton).
  run_step. cbn [lookup list_lookup].
  run_step. cbn [lookup list_lookup insert list_insert].
  run_step. cbn [lookup list_lookup insert list_insert].
  run_step. rewrite bool_decide_eq_true_2 by done.
  run_step. rewrite Hzero, size_empty.
  rewrite bool_decide_eq_true_2 by lia.
  rewrite bool_decide_eq_true_2 by done.
  reflexivity.
Qed.

(** X15.  With a negative [thread_limit], along every run: nothing is
    ever counted and at most one thread is started; if there is a word
    to check, [bruteforce] never returns and [complete_bruteforcing] is
    never set, and one run ends with [KeyError] from [thread_limiter]
    popping from the empty set. *)
Theorem negative_thread_limit (domain : string) (has_view : bool)
    (ws : result (list string)) (limit now : Z) (schedule : list action) :
  limit < 0 ->
  let m := exec (init domain has_view ws limit now) schedule in
  checked_subdomains_count m = 0
  /\ (dispatched m <= 1)%nat
  /\ (forall w rest, ws = inr (w :: rest) ->
      bruteforce_thread m <> PDone
      /\ complete_bruteforcing m = false
      /\ exists crashing,
          bruteforce_thread (exec (init domain has_view ws limit now) crashing)
          = PCrashed KeyError).
Proof.
  intros Hneg m.
  assert (thread_limit m < 0 /\ negative_limit_ok ws m) as [_ [Hcount Hpc]].
  { apply (exec_invariant
             (fun m => thread_limit m < 0 /\ negative_limit_ok ws m)).
    - by repeat split.
    - intros m' a [Hlim Hok]. rewrite thread_limit_step.
      split; [done|by apply negative_limit_ok_step]. }
  pose proof (completion_ok_exec domain has_view ws limit now schedule)
    as [Hflag _].
  fold m in Hflag.
  split; [done|]. split.
  - destruct (bruteforce_thread m); try lia; by destruct Hpc.
  - intros w rest ->.
    assert (bruteforce_thread m <> PView /\ bruteforce_thread m <> PDone)
      as [Hv Hd].
    { destruct (bruteforce_thread m); try done; by destruct Hpc. }
    split; [done|]. split.
    + destruct (complete_bruteforcing m); [|done]. by destruct Hflag as [[|] _].
    + eexists. by apply negative_limit_crashes.
Qed.

Lemma negative_thread_limit_witness :
  let m := exec (init "example.com" true (inr ["www"; "mail"]) (-1) 0)
             (dns_up ++ bruteforce_steps 20 0) in
  checked_subdomains_count m = 0 /\ (dispatched m <= 1)%nat.
Proof.
  pose proof (negative_thread_limit "example.com" true
                (inr ["www"; "mail"]) (-1) 0
                (dns_up ++ bruteforce_steps 20 0) ltac:(lia)) as (H1 & H2 & _).
  split; [exact H1|exact H2].
Defined.

(** *** The latest candidate *)

Lemma latest_ok_bruteforce_step domain ws0 m pick :
  position_ok ws0 m ->
  latest_ok domain ws0 m -> latest_ok domain ws0 (bruteforce_step pick m).
Proof.
  intros Hpos [Hbase Hl].
  destruct (bruteforce_step_effect m pick) as (Hb & _).
  split; [congruence|]. revert Hpos Hl.
  unfold position_ok, bruteforce_step, terminated, dispatched.
  destruct (bruteforce_thread m) as [|w|w|sub t|sub|sub t|sub| |[|t rest]| | | |e] eqn:Hpc;
    intros Hpos Hl.
  - destruct (words m) as [e'|[|w' rest']]; by msimpl.
  - destruct (dns_working m); msimpl; by rewrite ?Hpc.
  - msimpl. rewrite length_app. simpl. rewrite Nat.add_1_r. simpl.
    destruct Hpos as [-> _]. rewrite Nat.sub_0_r. simpl. by rewrite Hbase.
  - by msimpl.
  - repeat case_bool_decide; msimpl; by rewrite ?Hpc.
  - case_bool_decide; msimpl; by rewrite ?Hpc.
  - msimpl. destruct Hl as [Hsub _]. split; [done|].
    destruct (length (threads m)); [done|lia].
  - msimpl. by destruct Hl.
  - by msimpl.
  - case_bool_decide; msimpl; by rewrite ?Hpc.
  - by msimpl.
  - by destruct (view m); msimpl.
  - by rewrite Hpc.
  - by rewrite Hpc.
Qed.

Lemma latest_ok_step domain ws0 m a :
  position_ok ws0 m /\ (dispatched m <= length ws0)%nat
  /\ latest_ok domain ws0 m ->
  position_ok ws0 (step m a) /\ (dispatched (step m a) <= length ws0)%nat
  /\ latest_ok domain ws0 (step m a).
Proof.
  intros (Hpos & Hle & Hl).
  destruct (position_le_step ws0 m a (conj Hpos Hle)) as [Hpos' Hle'].
  split; [done|]. split; [done|].
  destruct a as [pick|t answer|answer]; simpl.
  - by apply latest_ok_bruteforce_step.
  - unfold latest_ok.
    rewrite bruteforce_thread_check_domain_step, dispatched_check_domain_step.
    assert (base_domain (check_domain_step t answer m) = base_domain m
            /\ latest (check_domain_step t answer m) = latest m) as [-> ->];
      [|done].
    unfold check_domain_step. by destruct (threads m !! t) as [[d|d|d|]|].
  - unfold dns_checker_step. by destruct (dns_checker_thread m).
Qed.

(** X16.  Along every run, whenever [bruteforce] is not between starting
    a thread and counting it (and has not died), [latest] is the
    candidate of the last word counted: unset while the counter is 0,
    and otherwise [word.domain] (trimmed) for the word whose number is
    the counter. *)
Theorem latest_is_last_counted (domain : string) (has_view : bool)
    (ws0 : list string) (limit now : Z) (schedule : list action) :
  let m := exec (init domain has_view (inr ws0) limit now) schedule in
  started_not_counted (bruteforce_thread m) = false ->
  (forall e, bruteforce_thread m <> PCrashed e) ->
  latest m
  = last_candidate domain ws0 (Z.to_nat (checked_subdomains_count m)).
Proof.
  intros m Hpc Hlive.
  assert (position_ok ws0 m /\ (dispatched m <= length ws0)%nat
          /\ latest_ok domain ws0 m) as (_ & _ & _ & Hl).
  { apply (exec_invariant
             (fun m => position_ok ws0 m /\ (dispatched m <= length ws0)%nat
                       /\ latest_ok domain ws0 m)).
    - repeat split. unfold dispatched. simpl. lia.
    - intros m' a. apply latest_ok_step. }
  assert (count_ok m) as Hcount.
  { apply exec_invariant; [apply count_ok_init|apply count_ok_step]. }
  unfold count_ok in Hcount.
  destruct (bruteforce_thread m) eqn:Hb; try done;
    try (by destruct (Hlive e));
    simpl in Hcount; rewrite Hcount, Z.sub_0_r, Nat2Z.id; done.
Qed.

Lemma latest_is_last_counted_witness :
  latest (exec test_bruteforce_init test_bruteforce_schedule)
  = Some "drive.google.com".
Proof.
  apply (latest_is_last_counted "google.com" true
           ["cieufhcne"; "maps"; "oicunf"; "drive"] 100 0
           test_bruteforce_schedule); [reflexivity|].
  intros e. by vm_compute.
Defined.

End more_engine.

(** ** The event listeners *)

Section listeners.
Import Listeners.
Local Open Scope list_scope.

Implicit Types (c : controller) (a : action) (schedule : list action).

Lemma told_snoc (n n' : notice) (ns : list notice) :
  Z.of_nat (length (filter (fun x => x = n) (ns ++ [n'])))
  = Z.of_nat (length (filter (fun x => x = n) ns))
    + (if decide (n' = n) then 1 else 0).
Proof.
  rewrite filter_app, length_app.
  destruct (decide (n' = n)) as [->|Hne].
  - rewrite filter_cons_True by done. simpl. lia.
  - rewrite filter_cons_False by done. simpl. lia.
Qed.

(** *** No second notice while the event stays set *)

Lemma step_while_paused c a :
  Model.dns_not_working (model c) = true ->
  told dns_not_working_notice c <= told dns_not_working_notice (step c a)
  /\ told dns_not_working_notice (step c a)
       + may_fire (not_working_listener (step c a))
     <= told dns_not_working_notice c + may_fire (not_working_listener c).
Proof.
  intros Hset. unfold told. destruct a as [a| |]; simpl.
  - lia.
  - destruct (working_listener c) as [pc|]; [|lia].
    destruct pc; simpl; try lia.
    destruct (Model.dns_working (model c)); simpl; [|lia].
    rewrite (told_snoc dns_not_working_notice dns_working_notice). simpl. lia.
  - destruct (not_working_listener c) as [pc|] eqn:Hl; [|rewrite Hl; simpl; lia].
    rewrite Hset.
    destruct pc; simpl; try lia.
    + destruct (Model.complete_bruteforcing (model c)); simpl; lia.
    + rewrite (told_snoc dns_not_working_notice dns_not_working_notice).
      simpl. lia.
Qed.

(** X17.  Over any stretch of a run during which [dns_not_working] stays
    set, the view is told PAUSED at most once, and not at all if the
    listener starts the stretch at the top of its loop or in its busy
    loop. *)
Theorem paused_told_once (c : controller) (schedule : list action) :
  paused_throughout c schedule = true ->
  let c' := exec c schedule in
  told dns_not_working_notice c <= told dns_not_working_notice c'
  /\ told dns_not_working_notice c'
     <= told dns_not_working_notice c + may_fire (not_working_listener c).
Proof.
  revert c. induction schedule as [|a rest IH]; intros c Hp; simpl.
  - destruct (not_working_listener c) as [[]|]; simpl; lia.
  - simpl in Hp. apply andb_true_iff in Hp as [Hset Hrest].
    destruct (step_while_paused c a Hset) as [H1 H2].
    destruct (IH _ Hrest) as [H3 H4]. unfold exec in *. lia.
Qed.

Lemma paused_told_once_witness :
  told dns_not_working_notice
    (exec example_controller
       [run_not_working_listener; run_not_working_listener;
        run_model (Model.run_dns_checker false); run_not_working_listener;
        run_working_listener; run_not_working_listener])
  <= 0.
Proof.
  exact (proj2 (paused_told_once example_controller
                  [run_not_working_listener; run_not_working_listener;
                   run_model (Model.run_dns_checker false);
                   run_not_working_listener;
                   run_working_listener; run_not_working_listener]
                  eq_refl)).
Defined.

(** *** A base domain that never resolves *)

Lemma silent_step c a :
  never_resolves [a] = true -> silent c -> silent (step c a).
Proof.
  intros Hnever (Hw & Hnw & Hchk & Hthr & Hbf & Hl & Hn).
  unfold silent. destruct a as [[pick|t answer|answer]| |]; simpl.
  - (* bruteforce *)
    destruct (bruteforce_step_effect (model c) pick) as (_ & _ & _ & _ & Ht).
    assert (Model.threads (Model.bruteforce_step pick (model c)) = []) as Ht'.
    { destruct Ht as [->|(w & Hpc & _)]; [done|]. by rewrite Hpc in Hbf. }
    revert Ht'. unfold Model.bruteforce_step, Model.terminated.
    rewrite Hw.
    destruct (Model.bruteforce_thread (model c))
      as [|w|w|sub t|sub|sub t|sub| |[|t rest]| | | |e] eqn:Hpc; try done;
      repeat case_bool_decide;
      try destruct (Model.words (model c)) as [e'|[|w' rest']];
      try destruct (Model.view (model c));
      msimpl; rewrite ?Hpc; intros Ht'; by repeat split.
  - (* check_domain *)
    unfold Model.check_domain_step. rewrite Hthr, lookup_nil.
    by repeat split.
  - (* dns_checker *)
    assert (answer = false) as -> by (by destruct answer).
    unfold Model.dns_checker_step.
    destruct (Model.dns_checker_thread (model c)) as [| |ok|ok|] eqn:Hpc;
      msimpl; rewrite ?Hpc; subst; try by repeat split.
    by destruct (Model.complete_bruteforcing (model c)); repeat split.
  - (* the listener of dns_working *)
    destruct (working_listener c) as [pc|] eqn:Hwl; [|by repeat split].
    rewrite Hw. destruct pc; simpl; by repeat split.
  - (* the listener of dns_not_working *)
    destruct (not_working_listener c) as [pc|] eqn:Hnl;
      [|rewrite ?Hnl; by repeat split].
    rewrite Hnw. destruct pc; simpl; try done; repeat split; try done.
    by destruct (Model.complete_bruteforcing (model c)).
Qed.

(** X18.  If the base domain never resolves, then along every run of a
    controller with a view no candidate is dispatched and the view is
    given no notice at all, not even PAUSED: the event was set before
    its listener started, and the listener only reports an event it has
    first seen clear. *)
Theorem never_resolving_domain_is_silent (domain : string)
    (ws : result (list string)) (limit now : Z) (schedule : list action) :
  never_resolves schedule = true ->
  exists c0,
    init (Some domain) true ws limit now = inr c0
    /\ let c := exec c0 schedule in
       notices c = []
       /\ Model.dispatched (model c) = 0%nat
       /\ Model.dns_not_working (model c) = true.
Proof.
  intros Hnever. eexists. split; [reflexivity|].
  set (c0 := {| model := _ |}).
  assert (silent (exec c0 schedule)) as (Hw & Hnw & _ & Hthr & _ & _ & Hn).
  { assert (silent c0) as Hs by by repeat split.
    clearbody c0. revert c0 Hs.
    induction schedule as [|a rest IH]; intros c0 Hs; [done|].
    simpl in Hnever. apply andb_true_iff in Hnever as [Ha Hrest].
    simpl. apply IH; [done|]. apply silent_step; [|done].
    simpl. by rewrite Ha. }
  unfold Model.dispatched. by rewrite Hthr.
Qed.

Lemma never_resolving_domain_is_silent_witness :
  exists c0,
    init (Some "example.com") true (inr ["www"; "mail"]) 100 0 = inr c0
    /\ let c := exec c0 [run_model (Model.run_dns_checker false);
                         run_model (Model.run_bruteforce 0);
                         run_not_working_listener;
                         run_model (Model.run_bruteforce 0);
                         run_not_working_listener;
                         run_not_working_listener] in
       notices c = []
       /\ Model.dispatched (model c) = 0%nat
       /\ Model.dns_not_working (model c) = true.
Proof.
  apply (never_resolving_domain_is_silent "example.com"
           (inr ["www"; "mail"]) 100 0). reflexivity.
Defined.

(** *** After completion *)

Lemma step_after_completed c a :
  completed_before c = true ->
  completed_before (step c a) = true
  /\ told dns_working_notice (step c a)
       + may_fire_completed (working_listener (step c a))
     <= told dns_working_notice c + may_fire_completed (working_listener c)
  /\ told dns_not_working_notice (step c a)
       + may_fire_completed (not_working_listener (step c a))
     <= told dns_not_working_notice c
        + may_fire_completed (not_working_listener c).
Proof.
  unfold completed_before, told. intros Hdone.
  destruct a as [a| |]; simpl.
  - split; [|lia]. by apply step_monotone.
  - destruct (working_listener c) as [pc|] eqn:Hl;
      [|rewrite ?Hl; split; [done|lia]].
    rewrite Hdone. destruct pc; simpl; (split; [done|]); try lia.
    + destruct (Model.dns_working (model c)); simpl; lia.
    + destruct (Model.dns_working (model c)); simpl; [|lia].
      rewrite (told_snoc dns_working_notice dns_working_notice),
        (told_snoc dns_not_working_notice dns_working_notice). simpl. lia.
  - destruct (not_working_listener c) as [pc|] eqn:Hl;
      [|rewrite ?Hl; split; [done|lia]].
    rewrite Hdone. destruct pc; simpl; (split; [done|]); try lia.
    + destruct (Model.dns_not_working (model c)); simpl; lia.
    + destruct (Model.dns_not_working (model c)); simpl; [|lia].
      rewrite (told_snoc dns_working_notice dns_not_working_notice),
        (told_snoc dns_not_working_notice dns_not_working_notice). simpl. lia.
Qed.

(** X19.  Once [complete_bruteforcing] is set, however long the run goes
    on, each listener gives the view at most one more notice, and none
    if it is at the test of its loop: the flag is only looked at there. *)
Theorem notices_after_completion (c : controller) (schedule : list action) :
  completed_before c = true ->
  let c' := exec c schedule in
  told dns_working_notice c'
    <= told dns_working_notice c + may_fire_completed (working_listener c)
  /\ told dns_not_working_notice c'
     <= told dns_not_working_notice c
        + may_fire_completed (not_working_listener c).
Proof.
  revert c. induction schedule as [|a rest IH]; intros c Hdone; simpl.
  - destruct (working_listener c) as [[]|], (not_working_listener c) as [[]|];
      simpl; lia.
  - destruct (step_after_completed c a Hdone) as (Hdone' & H1 & H2).
    destruct (IH _ Hdone') as [H3 H4]. unfold exec in *. lia.
Qed.

Lemma notices_after_completion_witness :
  let c' := exec finished_controller
              [run_working_listener; run_not_working_listener;
               run_model (Model.run_dns_checker true);
               run_working_listener; run_not_working_listener;
               run_working_listener; run_not_working_listener] in
  told dns_working_notice c' <= 1 /\ told dns_not_working_notice c' <= 1.
Proof.
  exact (notices_after_completion finished_controller
           [run_working_listener; run_not_working_listener;
            run_model (Model.run_dns_checker true);
            run_working_listener; run_not_working_listener;
            run_working_listener; run_not_working_listener] eq_refl).
Defined.

End listeners.
